(** * syncTerminalService: completion watcher and synchronizing command runner

    A shallow embedding of
    [src/client/common/terminal/syncTerminalService.ts]:

    - the [State] bit flags and [ExecutionState.getLockFileState], which
      derives them from the markers found in the lock file;
    - the [ExecutionState] watcher: its interval callback, its deferred
      [_completed] and its [dispose];
    - [SynchronousTerminalService]: [createLockFile], [sendCommand] and
      [dispose].

    Effects are threaded through a small monad over a [World] that records
    the heap of watcher objects, the service's [disposables] array and the
    chronological trace of the calls made to the collaborators (file
    system, interpreter service, terminal, timers, logger).  What the
    collaborators answer, and what the timer and the cancellation token do
    while [sendCommand] is suspended at an [await], is given by an [Env]. *)

From Stdlib Require Import String Ascii List ZArith Bool Lia DecimalString.
Import ListNotations.
Local Open Scope string_scope.
Local Open Scope Z_scope.

(** ** Strings as JavaScript uses them here *)

Module JsString.

(** [startsWith]: [search] is an initial segment of [source]. *)
Fixpoint startsWith (source search : string) {struct search} : bool :=
  match search, source with
  | EmptyString, _ => true
  | String _ _, EmptyString => false
  | String c search', String d source' =>
      if Ascii.eqb c d then startsWith source' search' else false
  end.

(** [String.prototype.includes]: [search] occurs at some position of
    [source]. *)
Fixpoint includes (source search : string) : bool :=
  if startsWith source search then true
  else match source with
       | EmptyString => false
       | String _ source' => includes source' search
       end.

(** [Array.prototype.join] with a separator. *)
Fixpoint join (sep : string) (l : list string) : string :=
  match l with
  | [] => EmptyString
  | [x] => x
  | x :: tl => x ++ sep ++ join sep tl
  end.

(** The declarative reading of "contains the substring". *)
Definition Contains (source search : string) : Prop :=
  exists pre post, source = pre ++ search ++ post.

End JsString.
Import JsString.

(** ** [enum State] *)

Definition State := Z.

Module St.
Definition notStarted : State := 0.
Definition started : State := 1.
Definition completed : State := 2.
Definition errored : State := 4.
End St.

(** JavaScript truthiness of [state & flag]. *)
Definition has_flag (state flag : State) : bool :=
  negb (Z.land state flag =? 0).

(** ** Errors and outcomes *)

(** An [Error] is represented by its message. *)
Definition Error := string.

(** The result of a call to a collaborator: it returns or it throws
    (for a promise: it resolves or it rejects). *)
Inductive result (A : Type) : Type :=
| Ok (a : A)
| Err (e : Error).
Arguments Ok {A} a.
Arguments Err {A} e.

(** [getLockFileState] applied to what [fs.readFile] answered. *)
Definition getLockFileState (read : result string) : result State :=
  match read with
  | Err e => Err e
  | Ok source =>
      let state := St.notStarted in
      let state := if includes source "START" then Z.lor state St.started else state in
      let state := if includes source "END" then Z.lor state St.completed else state in
      let state := if includes source "FAIL"
                   then Z.lor state (Z.lor St.completed St.errored) else state in
      Ok state
  end.

(** ** Objects *)

(** [TemporaryFile]: a path and a [dispose()] that deletes the file.
    [dispose_throws] is the error [dispose()] throws, if it does. *)
Record TemporaryFile : Type := mkTemporaryFile {
  filePath : string;
  dispose_throws : option Error
}.

(** [PythonInterpreter]: only [path] is read. *)
Record PythonInterpreter : Type := mkPythonInterpreter { path : string }.

(** [CancellationToken], as [sendCommand] receives it. *)
Record CancellationToken : Type := mkCancellationToken {
  isCancellationRequested : bool
}.

(** Modelled from the spec: [Deferred] and [createDeferred] of
    [../utils/async], which is not among the sources.  The spec's
    completion future "settles at most once; once settled (resolved or
    rejected) it is immutable". *)
Inductive Deferred : Type :=
| Pending
| Resolved
| Rejected (reason : Error).

Definition settled (d : Deferred) : bool :=
  match d with Pending => false | _ => true end.

(** [class ExecutionState]: its fields.  [disposable] holds the handle of
    the interval registered by [registerStateUpdate] until [dispose]
    clears it. *)
Record ExecutionState : Type := mkExecutionState {
  state : State;
  _completed : Deferred;
  disposable : option nat;
  lockFile : string;
  command : list string
}.

Definition set_state (s : State) (es : ExecutionState) : ExecutionState :=
  mkExecutionState s (_completed es) (disposable es) (lockFile es) (command es).
Definition set_completed (d : Deferred) (es : ExecutionState) : ExecutionState :=
  mkExecutionState (state es) d (disposable es) (lockFile es) (command es).
Definition set_disposable (t : option nat) (es : ExecutionState) : ExecutionState :=
  mkExecutionState (state es) (_completed es) t (lockFile es) (command es).

(** [SynchronousTerminalService]: the optional constructor argument; the
    [disposables] array lives in the [World]. *)
Record Service : Type := mkService {
  pythonInterpreter : option PythonInterpreter
}.

(** ** The world *)

(** Calls made to the collaborators, in the order they happen. *)
Inductive Event : Type :=
| EvCreateTemporaryFile (extension : string)
| EvSetInterval (handle : nat) (ms : Z)
| EvClearInterval (handle : nat)
| EvReadFile (file : string)
| EvTraceVerbose (message : string)
| EvGetActiveInterpreter
| EvTerminalSendCommand (command : string) (args : list string)
| EvTerminalDispose
| EvFileDispose (file : string).

Record World : Type := mkWorld {
  heap : list ExecutionState;          (* watcher objects, by reference *)
  disposables : list TemporaryFile;    (* [this.disposables] *)
  trace : list Event
}.

Definition initial_world : World := mkWorld [] [] [].

(** ** The monad: state, exceptions and suspension *)

(** A computation returns, throws, or stays suspended at an [await] that
    nothing in the scenario ever completes. *)
Inductive outcome (A : Type) : Type :=
| Done (a : A)
| Fail (e : Error)
| Hang.
Arguments Done {A} a.
Arguments Fail {A} e.
Arguments Hang {A}.

Definition M (A : Type) : Type := World -> outcome A * World.

Definition ret {A} (a : A) : M A := fun w => (Done a, w).
Definition throw {A} (e : Error) : M A := fun w => (Fail e, w).
Definition hang {A} : M A := fun w => (Hang, w).

Definition bind {A B} (m : M A) (k : A -> M B) : M B :=
  fun w => match m w with
           | (Done a, w') => k a w'
           | (Fail e, w') => (Fail e, w')
           | (Hang, w') => (Hang, w')
           end.

Declare Scope m_scope.
Delimit Scope m_scope with M.
Notation "x <- m ;; k" := (bind m (fun x => k))
  (at level 61, m at next level, right associativity) : m_scope.
Notation "m ;; k" := (bind m (fun _ => k))
  (at level 61, right associativity) : m_scope.
Local Open Scope m_scope.

(** [try { body } finally { fin }]: [fin] runs when [body] returns or
    throws; an exception of [fin] replaces the outcome of [body].  A
    suspended [body] never reaches [fin]. *)
Definition try_finally {A} (body : M A) (fin : M unit) : M A :=
  fun w => match body w with
           | (Hang, w') => (Hang, w')
           | (r, w') =>
               match fin w' with
               | (Done _, w'') => (r, w'')
               | (Fail e, w'') => (Fail e, w'')
               | (Hang, w'') => (Hang, w'')
               end
           end.


Definition emit (e : Event) : M unit :=
  fun w => (Done tt, mkWorld (heap w) (disposables w) (trace w ++ [e])).

(** Reading and writing an object through its reference. *)
Definition deref (this : nat) : M ExecutionState :=
  fun w => match nth_error (heap w) this with
           | Some es => (Done es, w)
           | None => (Fail "undefined reference", w)
           end.

Fixpoint update {A} (l : list A) (i : nat) (f : A -> A) : list A :=
  match l, i with
  | [], _ => []
  | x :: tl, O => f x :: tl
  | x :: tl, S i' => x :: update tl i' f
  end.

Definition assign (this : nat) (f : ExecutionState -> ExecutionState) : M unit :=
  fun w => (Done tt, mkWorld (update (heap w) this f) (disposables w) (trace w)).

Definition alloc (es : ExecutionState) : M nat :=
  fun w => (Done (List.length (heap w)),
            mkWorld (heap w ++ [es]) (disposables w) (trace w)).

(** A promise is represented by the result it will settle with. *)
Definition Promise (A : Type) : Type := result A.

Definition settle_with {A} (p : Promise A) : M A :=
  match p with Ok a => ret a | Err e => throw e end.

(** ** [class ExecutionState] *)

(** [this.command.join(' ')]. *)
Definition command_text (command : list string) : string := join " " command.

(** The template literal [`${state}`] of a number. *)
Definition number_to_string (n : Z) : string := NilZero.string_of_int (Z.to_int n).

Definition state_changed_message (state : State) (command : list string) : string :=
  "Command state changed to " ++ number_to_string state ++ ". " ++ command_text command.

Definition command_failed_message (command : list string) : string :=
  "Command failed with errors, check the terminal for details. Command: "
  ++ command_text command.

(** [dispose()]: clears the interval if it is still registered. *)
Definition ExecutionState_dispose (this : nat) : M unit :=
  es <- deref this ;;
  match disposable es with
  | Some timeout =>
      emit (EvClearInterval timeout) ;;
      assign this (set_disposable None)
  | None => ret tt
  end.

(** [this._completed.resolve()] and [this._completed.reject(error)].  The
    first settlement fixes the promise and runs the hook the constructor
    attached to it, [finally(() => this.dispose())]; later calls change
    nothing. *)
Definition completed_settle (this : nat) (d : Deferred) : M unit :=
  es <- deref this ;;
  match _completed es with
  | Pending =>
      assign this (set_completed d) ;;
      ExecutionState_dispose this
  | _ => ret tt
  end.

Definition completed_resolve (this : nat) : M unit := completed_settle this Resolved.
Definition completed_reject (this : nat) (e : Error) : M unit :=
  completed_settle this (Rejected e).

(** The body of the callback [registerStateUpdate] passes to
    [setInterval]; [read] is what [fs.readFile(this.lockFile)] answers at
    this iteration.  When the read fails the callback's own promise
    rejects, which nothing observes, and the watcher is left as it was. *)
Definition poll (this : nat) (read : result string) : M unit :=
  es <- deref this ;;
  let this_state := state es in
  emit (EvReadFile (lockFile es)) ;;
  match getLockFileState read with
  | Err _ => ret tt
  | Ok state =>
      (if negb (state =? this_state)
       then emit (EvTraceVerbose (state_changed_message state (command es)))
       else ret tt) ;;
      assign this (set_state state) ;;
      if has_flag state St.errored then
        completed_reject this (command_failed_message (command es))
      else if has_flag state St.completed then
        completed_resolve this
      else ret tt
  end.

(** The interval elapses: the callback runs if the interval is still
    registered. *)
Definition timer_fires (this : nat) (read : result string) : M unit :=
  es <- deref this ;;
  match disposable es with
  | Some _ => poll this read
  | None => ret tt
  end.

Fixpoint timer_fires_all (this : nat) (reads : list (result string)) : M unit :=
  match reads with
  | [] => ret tt
  | read :: reads' => timer_fires this read ;; timer_fires_all this reads'
  end.

(** [new ExecutionState(lockFile, fs, command)]: the field initialisers,
    then [registerStateUpdate()], which registers the 100 ms interval and
    stores its handle in [this.disposable].  The handle of a watcher's
    interval is the watcher's own reference. *)
Definition new_ExecutionState (lockFile : string) (command : list string) : M nat :=
  this <- alloc (mkExecutionState St.notStarted Pending None lockFile command) ;;
  emit (EvSetInterval this 100) ;;
  assign this (set_disposable (Some this)) ;;
  ret this.

(** [get completed()]. *)
Definition ExecutionState_completed (this : nat) : M Deferred :=
  es <- deref this ;;
  ret (_completed es).

(** [await p] while the watcher [this] is polling: the interval elapses
    for each of [reads] before [p] settles. *)
Definition await_polling {A} (this : nat) (reads : list (result string))
    (p : Promise A) : M A :=
  timer_fires_all this reads ;;
  settle_with p.

(** ** The collaborators *)

(** What happens while [Cancellation.race] waits. *)
Inductive RaceEvent : Type :=
| TimerTick (read : result string)
| CancellationRequested.

(** One scenario for one call of [sendCommand]: what the collaborators
    answer and what happens at each suspension point. *)
Record Env : Type := mkEnv {
  env_createTemporaryFile : Promise TemporaryFile;
  env_getActiveInterpreter : Promise (option PythonInterpreter);
  env_terminal_sendCommand : Promise unit;
  env_reads_resolving : list (result string);  (* polls while the interpreter is resolved *)
  env_reads_sending : list (result string);    (* polls while the terminal sends *)
  env_race : list RaceEvent                    (* polls and cancellation during the race *)
}.

(** [fs.createTemporaryFile(extension)]. *)
Definition fs_createTemporaryFile (env : Env) (extension : string)
  : M (Promise TemporaryFile) :=
  emit (EvCreateTemporaryFile extension) ;;
  ret (env_createTemporaryFile env).

(** [interpreter.getActiveInterpreter(undefined)]. *)
Definition interpreter_getActiveInterpreter (env : Env)
  : M (Promise (option PythonInterpreter)) :=
  emit EvGetActiveInterpreter ;;
  ret (env_getActiveInterpreter env).

(** [terminalService.sendCommand(command, args)]. *)
Definition terminalService_sendCommand (env : Env) (command : string)
    (args : list string) : M (Promise unit) :=
  emit (EvTerminalSendCommand command args) ;;
  ret (env_terminal_sendCommand env).


(** [TemporaryFile.dispose()]. *)
Definition TemporaryFile_dispose (l : TemporaryFile) : M unit :=
  emit (EvFileDispose (filePath l)) ;;
  match dispose_throws l with
  | Some e => throw e
  | None => ret tt
  end.

(** [promise.catch(noop)]: a rejection becomes a resolution. *)
Definition catch_noop (d : Deferred) : Deferred :=
  match d with
  | Rejected _ => Resolved
  | _ => d
  end.

(** Modelled from the spec: [Cancellation.race] of [../cancellation],
    which is not among the sources.  The spec: "Race the Watcher's
    completion future against the external cancellation signal. If
    cancellation fires first, the wait returns without error";
    "whichever happens first wins".  [work] observes the raced promise;
    while it is pending the events of [schedule] happen one by one. *)
Fixpoint race_loop (work : M Deferred) (this : nat) (schedule : list RaceEvent)
  : M unit :=
  d <- work ;;
  match d with
  | Resolved => ret tt
  | Rejected e => throw e
  | Pending =>
      match schedule with
      | [] => hang
      | CancellationRequested :: _ => ret tt
      | TimerTick read :: schedule' =>
          timer_fires this read ;;
          race_loop work this schedule'
      end
  end.

(** Modelled from the spec: [Cancellation.race(work, token)] itself.  A
    token already cancelled when the race starts is cancellation firing
    first. *)
Definition Cancellation_race (work : M Deferred) (this : nat)
    (token : CancellationToken) (schedule : list RaceEvent) : M unit :=
  if isCancellationRequested token then ret tt
  else race_loop work this schedule.

(** ** [class SynchronousTerminalService] *)

Section SynchronousTerminalService.

(** [path.join(EXTENSION_ROOT_DIR, 'pythonFiles', 'shell_exec.py')];
    [EXTENSION_ROOT_DIR] comes from [../../constants]. *)
Variable shellExecFile : string.

(** [String.prototype.fileToCommandArgument], the quoting helper the
    code base adds to strings. *)
Variable fileToCommandArgument : string -> string.

(** [createLockFile()]. *)
Definition createLockFile (env : Env) : M TemporaryFile :=
  p <- fs_createTemporaryFile env ".log" ;;
  l <- settle_with p ;;
  (fun w => (Done tt, mkWorld (heap w) (disposables w ++ [l]) (trace w))) ;;
  ret l.

(** [pythonExec?.path || 'python']. *)
Definition python_path (pythonExec : option PythonInterpreter) : string :=
  match pythonExec with
  | Some i => match path i with
              | EmptyString => "python"
              | p => p
              end
  | None => "python"
  end.

(** The argument array [sendCommand] builds for the terminal. *)
Definition rewritten_args (command : string) (args : list string)
    (lockFile : TemporaryFile) : list string :=
  [fileToCommandArgument shellExecFile; fileToCommandArgument command]
    ++ args
    ++ [fileToCommandArgument (filePath lockFile)].

(** [sendCommand(command, args, cancel?)]. *)
Definition sendCommand (this : Service) (env : Env) (command : string)
    (args : list string) (cancel : option CancellationToken) : M unit :=
  match cancel with
  | None =>
      p <- terminalService_sendCommand env command args ;;
      settle_with p
  | Some cancel =>
      lockFile <- createLockFile env ;;
      state <- new_ExecutionState (filePath lockFile) (command :: args) ;;
      try_finally
        (pythonExec <-
           match pythonInterpreter this with
           | Some i => ret (Some i)
           | None =>
               p <- interpreter_getActiveInterpreter env ;;
               await_polling state (env_reads_resolving env) p
           end ;;
         p <- terminalService_sendCommand env (python_path pythonExec)
                (rewritten_args command args lockFile) ;;
         await_polling state (env_reads_sending env) p ;;
         Cancellation_race
           (d <- ExecutionState_completed state ;; ret (catch_noop d))
           state cancel (env_race env))
        (ExecutionState_dispose state ;;
         TemporaryFile_dispose lockFile)
  end.



End SynchronousTerminalService.

(** * Properties *)

(** ** Substrings *)

Lemma startsWith_spec (search source : string) :
  startsWith source search = true <-> exists post, source = search ++ post.
Proof.
  revert source; induction search as [|c search IH]; intros source; simpl.
  - split; [intros _; now exists source | reflexivity].
  - destruct source as [|d source]; simpl.
    + split; [discriminate | intros [post H]; discriminate].
    + destruct (Ascii.eqb_spec c d) as [->|Hcd].
      * rewrite IH. split; intros [post H]; exists post.
        -- now rewrite H.
        -- now injection H.
      * split; [discriminate | intros [post H]; simpl in H; congruence].
Qed.

Lemma includes_spec (source search : string) :
  includes source search = true <-> Contains source search.
Proof.
  induction source as [|d source IH]; simpl.
  - destruct (startsWith EmptyString search) eqn:E.
    + split; [intros _ | reflexivity].
      apply startsWith_spec in E. destruct E as [post E].
      exists EmptyString, post. exact E.
    + split; [discriminate|]. intros [pre [post H]].
      destruct pre; simpl in H; [|discriminate].
      assert (startsWith EmptyString search = true) as E'
        by (apply startsWith_spec; now exists post).
      congruence.
  - destruct (startsWith (String d source) search) eqn:E.
    + split; [intros _ | reflexivity].
      apply startsWith_spec in E. destruct E as [post E].
      exists EmptyString, post. exact E.
    + rewrite IH. split.
      * intros [pre [post H]]. exists (String d pre), post. simpl. now rewrite H.
      * intros [pre [post H]]. destruct pre as [|c pre]; simpl in H.
        -- assert (startsWith (String d source) search = true) as E'
             by (apply startsWith_spec; now exists post).
           congruence.
        -- injection H as _ H. now exists pre, post.
Qed.

Lemma includes_false (source search : string) :
  includes source search = false <-> ~ Contains source search.
Proof.
  rewrite <- includes_spec. destruct (includes source search); split; congruence.
Qed.


(** ** The state derived from the lock file *)

Lemma getLockFileState_flags (source : string) :
  getLockFileState (Ok source) =
  Ok ((if includes source "START" then St.started else 0)
      + (if includes source "END" || includes source "FAIL" then St.completed else 0)
      + (if includes source "FAIL" then St.errored else 0)).
Proof.
  unfold getLockFileState.
  destruct (includes source "START"), (includes source "END"),
    (includes source "FAIL"); reflexivity.
Qed.

(** C3: for every contents of the lock file, [getLockFileState] returns a
    state (never an error) whose Started bit is set iff the contents
    contain "START", whose Completed bit is set iff they contain "END" or
    "FAIL", and whose Errored bit is set iff they contain "FAIL". *)
Theorem getLockFileState_markers (source : string) :
  exists st : State,
    getLockFileState (Ok source) = Ok st
    /\ (has_flag st St.started = true <-> Contains source "START")
    /\ (has_flag st St.completed = true
        <-> Contains source "END" \/ Contains source "FAIL")
    /\ (has_flag st St.errored = true <-> Contains source "FAIL").
Proof.
  eexists. split; [apply getLockFileState_flags|].
  rewrite <- !includes_spec.
  destruct (includes source "START"), (includes source "END"),
    (includes source "FAIL"); cbv; intuition congruence.
Qed.

(** ** The heap *)

Lemma nth_error_update_same {A} (l : list A) (i : nat) (f : A -> A) :
  nth_error (update l i f) i = option_map f (nth_error l i).
Proof.
  revert i; induction l as [|x l IH]; intros [|i]; simpl; auto.
Qed.

Lemma nth_error_alloc {A} (l : list A) (x : A) :
  nth_error (l ++ [x]) (List.length l) = Some x.
Proof.
  induction l as [|y l IH]; simpl; auto.
Qed.

(** The watcher object behind the reference [this]. *)
Definition watcher (w : World) (this : nat) : option ExecutionState :=
  nth_error (heap w) this.

Lemma deref_run (w : World) (this : nat) (es : ExecutionState) :
  watcher w this = Some es -> deref this w = (Done es, w).
Proof. unfold watcher, deref. now intros ->. Qed.

(** Unfolds the monad on a goal about a watcher that is known. *)
Ltac run_step :=
  match goal with
  | H : watcher ?w ?this = Some _ |- context [deref ?this ?w] =>
      rewrite (deref_run _ _ _ H)
  | |- context [deref _ (mkWorld _ _ _)] => unfold deref
  | |- context [watcher (mkWorld _ _ _) _] => unfold watcher
  | |- context [nth_error (update _ ?i _) ?i] => rewrite nth_error_update_same
  | H : watcher ?w ?this = Some _ |- context [nth_error (heap ?w) ?this] =>
      change (nth_error (heap w) this) with (watcher w this); rewrite H
  | |- _ => progress (cbn [bind ret throw hang emit assign heap disposables
                             trace option_map state _completed disposable
                             lockFile command set_state set_completed
                             set_disposable fst snd])
  | |- _ => progress (unfold bind, ret, throw, hang, emit, assign)
  end.

Ltac run := repeat run_step.

(** ** One poll iteration *)



Lemma getLockFileState_END (source : string) :
  Contains source "END" -> ~ Contains source "FAIL" ->
  exists st, getLockFileState (Ok source) = Ok st
             /\ has_flag st St.errored = false
             /\ has_flag st St.completed = true.
Proof.
  intros H N. destruct (getLockFileState_markers source) as (st & E & _ & C & F).
  exists st. split; [exact E | split].
  - destruct (has_flag st St.errored); [|reflexivity]. exfalso. now apply N, F.
  - apply C. now left.
Qed.

Lemma getLockFileState_quiet (source : string) :
  ~ Contains source "END" -> ~ Contains source "FAIL" ->
  exists st, getLockFileState (Ok source) = Ok st
             /\ has_flag st St.errored = false
             /\ has_flag st St.completed = false.
Proof.
  intros NE NF.
  destruct (getLockFileState_markers source) as (st & E & _ & C & F).
  exists st. split; [exact E | split].
  - destruct (has_flag st St.errored); [|reflexivity]. exfalso. now apply NF, F.
  - destruct (has_flag st St.completed); [|reflexivity]. exfalso.
    destruct (proj1 C eq_refl); contradiction.
Qed.

(** ** How a watcher evolves *)

Local Open Scope list_scope.

(** The events a watcher produces on its own. *)
Definition watcher_event (e : Event) : bool :=
  match e with
  | EvReadFile _ | EvTraceVerbose _ | EvClearInterval _ => true
  | _ => false
  end.

(** [es'] is a later state of the watcher [es], [evs] being what it did
    in between: the lock file and the command are fixed; the promise
    settles at most once, and a rejection carries the message built from
    the command; the interval, once cleared, stays cleared. *)
Record watcher_step (evs : list Event) (es es' : ExecutionState) : Prop := {
  step_lockFile : lockFile es' = lockFile es;
  step_command : command es' = command es;
  step_completed :
    _completed es' = _completed es
    \/ (_completed es = Pending
        /\ (_completed es' = Resolved
            \/ _completed es' = Rejected (command_failed_message (command es))));
  step_disposable :
    disposable es' = disposable es
    \/ (disposable es' = None
        /\ exists h, disposable es = Some h /\ In (EvClearInterval h) evs)
}.

(** The world goes from [w] to [w'] by the activity of the watcher [this]
    alone. *)
Record evolves (this : nat) (es : ExecutionState) (evs : list Event)
    (w w' : World) (es' : ExecutionState) : Prop := {
  ev_trace : trace w' = trace w ++ evs;
  ev_events : forallb watcher_event evs = true;
  ev_disposables : disposables w' = disposables w;
  ev_watcher : watcher w' this = Some es';
  ev_step : watcher_step evs es es'
}.

Lemma watcher_step_refl (es : ExecutionState) : watcher_step [] es es.
Proof. split; auto. Qed.

Lemma watcher_step_trans (e1 e2 : list Event) (a b c : ExecutionState) :
  watcher_step e1 a b -> watcher_step e2 b c -> watcher_step (e1 ++ e2) a c.
Proof.
  intros [L1 C1 D1 T1] [L2 C2 D2 T2]. split.
  - congruence.
  - congruence.
  - rewrite C1 in D2.
    destruct D1 as [D1|[P1 D1]], D2 as [D2|[P2 D2]].
    + left; congruence.
    + right; split; [congruence | exact D2].
    + right; split; [exact P1 | destruct D1; [left|right]; congruence].
    + destruct D1; congruence.
  - destruct T1 as [T1|[N1 (h & S1 & I1)]], T2 as [T2|[N2 (k & S2 & I2)]].
    + left; congruence.
    + right; split; [exact N2 | exists k; split; [congruence | apply in_or_app; now right]].
    + right; split; [congruence | exists h; split; [exact S1 | apply in_or_app; now left]].
    + congruence.
Qed.

Lemma evolves_refl (this : nat) (w : World) (es : ExecutionState) :
  watcher w this = Some es -> evolves this es [] w w es.
Proof.
  intros H. split; auto using watcher_step_refl. now rewrite app_nil_r.
Qed.

Lemma evolves_trans (this : nat) (e1 e2 : list Event) (w0 w1 w2 : World)
    (a b c : ExecutionState) :
  evolves this a e1 w0 w1 b -> evolves this b e2 w1 w2 c ->
  evolves this a (e1 ++ e2) w0 w2 c.
Proof.
  intros [T1 E1 D1 W1 S1] [T2 E2 D2 W2 S2]. split.
  - now rewrite T2, T1, app_assoc.
  - rewrite forallb_app, E1, E2. reflexivity.
  - congruence.
  - exact W2.
  - eapply watcher_step_trans; eassumption.
Qed.

(** What settling does to a promise. *)
Definition settle (d new : Deferred) : Deferred :=
  match d with Pending => new | _ => d end.

(** [dispose()] of a watcher clears the interval when it is registered. *)
Lemma ExecutionState_dispose_run (w : World) (this : nat) (es : ExecutionState) :
  watcher w this = Some es ->
  exists w' evs es',
    ExecutionState_dispose this w = (Done tt, w')
    /\ evolves this es evs w w' es'
    /\ es' = set_disposable None es
    /\ evs = match disposable es with
             | Some h => [EvClearInterval h]
             | None => []
             end.
Proof.
  intros H. unfold ExecutionState_dispose. run.
  destruct es as [s c [h|] f cmd]; run.
  - eexists _, _, _. split; [reflexivity|]. split; [|split; reflexivity].
    split; run; try reflexivity.
    split; cbn; auto. right. split; [reflexivity|]. exists h. cbn. auto.
  - exists w, [], (mkExecutionState s c None f cmd).
    split; [reflexivity|]. split; [|split; reflexivity].
    now apply evolves_refl.
Qed.

Lemma completed_settle_run (w : World) (this : nat) (es : ExecutionState)
    (d : Deferred) :
  watcher w this = Some es ->
  d = Resolved \/ d = Rejected (command_failed_message (command es)) ->
  exists w' evs es',
    completed_settle this d w = (Done tt, w')
    /\ evolves this es evs w w' es'
    /\ _completed es' = settle (_completed es) d
    /\ disposable es' = (if settled (_completed es) then disposable es else None)
    /\ forallb (fun e => match e with EvClearInterval _ => true | _ => false end)
         evs = true.
Proof.
  intros H Hd. unfold completed_settle, ExecutionState_dispose. run.
  destruct es as [s c t f cmd]; cbn [_completed command] in *.
  destruct c; cbn [settle]; run.
  - destruct t as [h|]; run.
    + eexists _, [EvClearInterval h], _. split; [reflexivity|].
      split; [split; run; try reflexivity|repeat split; reflexivity].
      split; cbn; auto.
      right. split; [reflexivity|]. exists h. cbn. auto.
    + eexists _, [], _. split; [reflexivity|].
      split; [split; run; try reflexivity|repeat split; reflexivity].
      * cbn. now rewrite app_nil_r.
      * split; cbn; auto.
  - exists w, [], (mkExecutionState s Resolved t f cmd).
    split; [reflexivity|]. split; [now apply evolves_refl | auto].
  - exists w, [], (mkExecutionState s (Rejected reason) t f cmd).
    split; [reflexivity|]. split; [now apply evolves_refl | auto].
Qed.

(** The promise of the watcher [es] after a poll iteration that read
    [read]. *)
Definition poll_completed (es : ExecutionState) (read : result string) : Deferred :=
  match getLockFileState read with
  | Err _ => _completed es
  | Ok st =>
      if has_flag st St.errored then
        settle (_completed es) (Rejected (command_failed_message (command es)))
      else if has_flag st St.completed then
        settle (_completed es) Resolved
      else _completed es
  end.

(** The number of times the lock file is read in a trace. *)
Fixpoint count_reads (evs : list Event) : nat :=
  match evs with
  | [] => O
  | EvReadFile _ :: evs' => S (count_reads evs')
  | _ :: evs' => count_reads evs'
  end.

Lemma count_reads_app (e1 e2 : list Event) :
  count_reads (e1 ++ e2) = (count_reads e1 + count_reads e2)%nat.
Proof.
  induction e1 as [|e e1 IH]; [reflexivity|].
  destruct e; cbn; now rewrite IH.
Qed.

Lemma count_reads_clear (evs : list Event) :
  forallb (fun e => match e with EvClearInterval _ => true | _ => false end) evs
  = true ->
  count_reads evs = O.
Proof.
  induction evs as [|e evs IH]; [reflexivity|].
  destruct e; cbn; try discriminate. exact IH.
Qed.

(** One poll iteration always returns; it reads the lock file once, and
    settles the promise as [poll_completed] says; the interval is cleared
    exactly when this iteration settles the promise. *)
Lemma poll_run (w : World) (this : nat) (es : ExecutionState)
    (read : result string) :
  watcher w this = Some es ->
  exists w' evs es',
    poll this read w = (Done tt, w')
    /\ evolves this es evs w w' es'
    /\ _completed es' = poll_completed es read
    /\ disposable es' =
         (if negb (settled (_completed es)) && settled (poll_completed es read)
          then None else disposable es)
    /\ count_reads evs = 1%nat.
Proof.
  intros H. unfold poll, poll_completed, completed_reject, completed_resolve.
  run.
  destruct (getLockFileState read) as [st|e]; run.
  2:{ eexists _, [EvReadFile (lockFile es)], es.
      split; [reflexivity|]. split; [split; run; auto using watcher_step_refl|].
      - split; auto.
      - rewrite andb_comm. destruct (_completed es); auto. }
  set (pre := if negb (st =? state es)
              then [EvReadFile (lockFile es);
                    EvTraceVerbose (state_changed_message st (command es))]
              else [EvReadFile (lockFile es)]).
  set (w1 := mkWorld (update (heap w) this (set_state st)) (disposables w)
               (trace w ++ pre)).
  assert (H1 : watcher w1 this = Some (set_state st es)) by (subst w1; run; reflexivity).
  assert (E1 : evolves this es pre w w1 (set_state st es)).
  { split; auto.
    - subst pre. destruct (negb (st =? state es)); reflexivity.
    - split; auto. }
  assert (R1 : count_reads pre = 1%nat)
    by (subst pre; destruct (negb (st =? state es)); reflexivity).
  assert (G : forall (k : M unit) r,
             k w1 = r ->
             (let (o, w') :=
                (if negb (st =? state es)
                 then fun w0 => (Done tt, mkWorld (heap w0) (disposables w0)
                    (trace w0 ++ [EvTraceVerbose
                       (state_changed_message st (command es))]))
                 else fun w0 => (Done tt, w0))
                  (mkWorld (heap w) (disposables w)
                     (trace w ++ [EvReadFile (lockFile es)])) in
              match o with
              | Done _ => k (mkWorld (update (heap w') this (set_state st))
                               (disposables w') (trace w'))
              | Fail e => (Fail e, w')
              | Hang => (Hang, w')
              end) = r).
  { intros k r <-. subst w1 pre.
    destruct (negb (st =? state es)); cbn; rewrite <- ?app_assoc; reflexivity. }
  assert (Hd : forall d, settled d = true ->
             (if negb (settled (_completed es))
                 && settled (settle (_completed es) d)
              then None else disposable es)
             = (if settled (_completed es) then disposable es else None)).
  { intros d Sd. destruct (_completed es); cbn; auto. now rewrite Sd. }
  destruct (has_flag st St.errored) eqn:Ferr;
    [|destruct (has_flag st St.completed) eqn:Fcomp].
  - destruct (completed_settle_run w1 this (set_state st es)
                (Rejected (command_failed_message (command es))) H1)
      as (w' & evs & es' & E & Ev & C & D & Cl); [now right|].
    exists w', (pre ++ evs), es'.
    split; [apply G, E|]. split; [eapply evolves_trans; eassumption|].
    split; [exact C|]. split.
    + rewrite D. symmetry. apply Hd. reflexivity.
    + rewrite count_reads_app, R1, (count_reads_clear _ Cl). reflexivity.
  - destruct (completed_settle_run w1 this (set_state st es) Resolved H1)
      as (w' & evs & es' & E & Ev & C & D & Cl); [now left|].
    exists w', (pre ++ evs), es'.
    split; [apply G, E|]. split; [eapply evolves_trans; eassumption|].
    split; [exact C|]. split.
    + rewrite D. symmetry. apply Hd. reflexivity.
    + rewrite count_reads_app, R1, (count_reads_clear _ Cl). reflexivity.
  - exists w1, pre, (set_state st es).
    split; [now apply G|]. split; [exact E1|].
    split; [reflexivity|]. split; [|exact R1].
    cbn. rewrite andb_comm. destruct (_completed es); reflexivity.
Qed.


(** C5: a poll iteration that reads contents containing "END" but not
    "FAIL" resolves the watcher's promise, whether or not "START" was ever
    seen: a promise still pending becomes resolved. *)
Theorem poll_END_resolves (w : World) (this : nat) (es : ExecutionState)
    (source : string) :
  watcher w this = Some es ->
  Contains source "END" ->
  ~ Contains source "FAIL" ->
  exists w' es',
    poll this (Ok source) w = (Done tt, w')
    /\ watcher w' this = Some es'
    /\ _completed es' = settle (_completed es) Resolved
    /\ (_completed es = Pending -> _completed es' = Resolved).
Proof.
  intros H E' F.
  destruct (poll_run w this es (Ok source) H) as (w' & evs & es' & E & Ev & C & _).
  destruct (getLockFileState_END source E' F) as (st & G & Ferr & Fcomp).
  unfold poll_completed in C. rewrite G, Ferr, Fcomp in C.
  exists w', es'. split; [exact E|]. split; [apply Ev|]. split; [exact C|].
  intros P. now rewrite C, P.
Qed.

(** ** The interval *)

Lemma timer_fires_run (w : World) (this : nat) (es : ExecutionState)
    (read : result string) :
  watcher w this = Some es ->
  exists w' evs es',
    timer_fires this read w = (Done tt, w')
    /\ evolves this es evs w w' es'
    /\ (disposable es <> None ->
        _completed es' = poll_completed es read
        /\ disposable es' =
             (if negb (settled (_completed es)) && settled (poll_completed es read)
              then None else disposable es)
        /\ count_reads evs = 1%nat)
    /\ (disposable es = None -> es' = es).
Proof.
  intros H. unfold timer_fires. run.
  destruct (disposable es) as [h|] eqn:D.
  - destruct (poll_run w this es read H) as (w' & evs & es' & E & Ev & C & D' & R).
    exists w', evs, es'. rewrite D in D'.
    split; [exact E|]. split; [exact Ev|]. split; [auto|]. intros X; discriminate X.
  - exists w, [], es. split; [reflexivity|].
    split; [now apply evolves_refl|]. split; [congruence | intros _; reflexivity].
Qed.

Lemma timer_fires_all_run (w : World) (this : nat) (es : ExecutionState)
    (reads : list (result string)) :
  watcher w this = Some es ->
  exists w' evs es',
    timer_fires_all this reads w = (Done tt, w')
    /\ evolves this es evs w w' es'.
Proof.
  revert w es. induction reads as [|read reads IH]; intros w es H; cbn.
  - exists w, [], es. split; [reflexivity | now apply evolves_refl].
  - destruct (timer_fires_run w this es read H) as (w1 & e1 & es1 & E1 & Ev1 & _).
    destruct (IH w1 es1 (ev_watcher _ _ _ _ _ _ Ev1)) as (w2 & e2 & es2 & E2 & Ev2).
    exists w2, (e1 ++ e2), es2. split.
    + unfold bind. now rewrite E1.
    + eapply evolves_trans; eassumption.
Qed.

(** A read that shows no terminal marker. *)
Definition no_marker (source : string) : Prop :=
  ~ Contains source "END" /\ ~ Contains source "FAIL".

Lemma poll_completed_no_marker (es : ExecutionState) (source : string) :
  no_marker source -> poll_completed es (Ok source) = _completed es.
Proof.
  intros [NE NF]. unfold poll_completed.
  destruct (getLockFileState_quiet source NE NF) as (st & G & Ferr & Fcomp).
  now rewrite G, Ferr, Fcomp.
Qed.

(** C6: while the lock file shows neither "END" nor "FAIL", no poll
    iteration resolves or rejects the promise: after any number of such
    polls the promise is what it was, the interval is still registered,
    and every tick of a registered interval has read the file again. *)
Theorem polling_without_marker_never_settles (w : World) (this : nat)
    (es : ExecutionState) (sources : list string) :
  watcher w this = Some es ->
  Forall no_marker sources ->
  exists w' evs es',
    timer_fires_all this (map Ok sources) w = (Done tt, w')
    /\ trace w' = trace w ++ evs
    /\ watcher w' this = Some es'
    /\ _completed es' = _completed es
    /\ disposable es' = disposable es
    /\ (disposable es <> None -> count_reads evs = List.length sources).
Proof.
  intros H F. revert w es H.
  induction F as [|source sources N F IH]; intros w es H; cbn.
  - exists w, [], es. rewrite app_nil_r. repeat split; auto.
  - destruct (timer_fires_run w this es (Ok source) H)
      as (w1 & e1 & es1 & E1 & Ev1 & Live & Dead).
    destruct (IH w1 es1 (ev_watcher _ _ _ _ _ _ Ev1))
      as (w2 & e2 & es2 & E2 & T2 & W2 & C2 & D2 & R2).
    assert (K : _completed es1 = _completed es /\ disposable es1 = disposable es
                /\ (disposable es <> None -> count_reads e1 = 1%nat)).
    { destruct (disposable es) as [h|] eqn:D.
      - destruct Live as (C & D' & R); [discriminate|].
        rewrite (poll_completed_no_marker es source N) in C, D'.
        rewrite C, D'. split; [reflexivity|]. split; [|auto].
        now destruct (_completed es).
      - rewrite (Dead eq_refl). rewrite D. repeat split; auto. congruence. }
    destruct K as (C1 & D1 & R1).
    exists w2, (e1 ++ e2), es2. split; [unfold bind; now rewrite E1|].
    split; [rewrite T2, (ev_trace _ _ _ _ _ _ Ev1); now rewrite app_assoc|].
    split; [exact W2|]. split; [congruence|]. split; [congruence|].
    intros L. rewrite count_reads_app, R1 by exact L.
    rewrite R2 by congruence. reflexivity.
Qed.

(** ** The race *)

Lemma bind_run {A B} (m : M A) (k : A -> M B) (w w1 : World) (a : A) :
  m w = (Done a, w1) -> bind m k w = k a w1.
Proof. unfold bind. now intros ->. Qed.

(** The race over [state.completed.catch(noop)] never throws: it returns,
    or it stays suspended on a promise that is still pending. *)
Lemma race_loop_run (this : nat) (schedule : list RaceEvent) (w : World)
    (es : ExecutionState) :
  watcher w this = Some es ->
  exists r w' evs es',
    race_loop (d <- ExecutionState_completed this ;; ret (catch_noop d))
      this schedule w = (r, w')
    /\ evolves this es evs w w' es'
    /\ (r = Done tt \/ (r = Hang /\ _completed es' = Pending)).
Proof.
  revert w es. induction schedule as [|ev schedule IH]; intros w es H.
  - exists (match _completed es with Pending => Hang | _ => Done tt end), w, [], es.
    split; [|split; [now apply evolves_refl|]].
    + cbn [race_loop]. unfold ExecutionState_completed. run.
      destruct (_completed es); reflexivity.
    + destruct (_completed es); auto.
  - destruct (_completed es) eqn:C.
    + destruct ev as [read|].
      * destruct (timer_fires_run w this es read H) as (w1 & e1 & es1 & E1 & Ev1 & _).
        destruct (IH w1 es1 (ev_watcher _ _ _ _ _ _ Ev1))
          as (r & w2 & e2 & es2 & E2 & Ev2 & R).
        exists r, w2, (e1 ++ e2), es2.
        split; [|split; [eapply evolves_trans; eassumption | exact R]].
        cbn [race_loop]. unfold ExecutionState_completed. run. rewrite C.
        cbn [catch_noop]. rewrite E1. exact E2.
      * exists (Done tt), w, [], es.
        split; [|split; [now apply evolves_refl | now left]].
        cbn [race_loop]. unfold ExecutionState_completed. run. now rewrite C.
    + exists (Done tt), w, [], es.
      split; [|split; [now apply evolves_refl | now left]].
      cbn [race_loop]. unfold ExecutionState_completed. run. now rewrite C.
    + exists (Done tt), w, [], es.
      split; [|split; [now apply evolves_refl | now left]].
      cbn [race_loop]. unfold ExecutionState_completed. run. now rewrite C.
Qed.

Lemma Cancellation_race_run (this : nat) (token : CancellationToken)
    (schedule : list RaceEvent) (w : World) (es : ExecutionState) :
  watcher w this = Some es ->
  exists r w' evs es',
    Cancellation_race (d <- ExecutionState_completed this ;; ret (catch_noop d))
      this token schedule w = (r, w')
    /\ evolves this es evs w w' es'
    /\ (r = Done tt \/ (r = Hang /\ _completed es' = Pending)).
Proof.
  intros H. unfold Cancellation_race.
  destruct (isCancellationRequested token).
  - exists (Done tt), w, [], es.
    split; [reflexivity | split; [now apply evolves_refl | now left]].
  - now apply race_loop_run.
Qed.

(** ** One call of [sendCommand] *)

Lemma update_alloc {A} (l : list A) (x : A) (f : A -> A) :
  update (l ++ [x]) (List.length l) f = l ++ [f x].
Proof. induction l as [|y l IH]; cbn; [reflexivity | now rewrite IH]. Qed.

Lemma new_ExecutionState_run (file : string) (cmd : list string) (w : World) :
  new_ExecutionState file cmd w =
  (Done (List.length (heap w)),
   mkWorld
     (heap w ++ [mkExecutionState St.notStarted Pending
                   (Some (List.length (heap w))) file cmd])
     (disposables w)
     (trace w ++ [EvSetInterval (List.length (heap w)) 100])).
Proof.
  unfold new_ExecutionState, alloc. run. now rewrite update_alloc.
Qed.

(** The outcome a promise gives to the [await] on it. *)
Definition awaited {A} (p : Promise A) : outcome A :=
  match p with Ok a => Done a | Err e => Fail e end.

Lemma await_polling_run {A} (this : nat) (reads : list (result string))
    (p : Promise A) (w : World) (es : ExecutionState) :
  watcher w this = Some es ->
  exists w' evs es',
    await_polling this reads p w = (awaited p, w')
    /\ evolves this es evs w w' es'.
Proof.
  intros H.
  destruct (timer_fires_all_run w this es reads H) as (w' & evs & es' & E & Ev).
  exists w', evs, es'. split; [|exact Ev].
  unfold await_polling. rewrite (bind_run _ _ _ _ _ E). now destruct p.
Qed.

(** The terminal invocations recorded in a trace. *)
Fixpoint sends (evs : list Event) : list (string * list string) :=
  match evs with
  | [] => []
  | EvTerminalSendCommand c a :: evs' => (c, a) :: sends evs'
  | _ :: evs' => sends evs'
  end.

Lemma sends_app (e1 e2 : list Event) : sends (e1 ++ e2) = sends e1 ++ sends e2.
Proof.
  induction e1 as [|e e1 IH]; [reflexivity|].
  destruct e; cbn; now rewrite IH.
Qed.

Lemma sends_watcher_events (evs : list Event) :
  forallb watcher_event evs = true -> sends evs = [].
Proof.
  induction evs as [|e evs IH]; [reflexivity|].
  destruct e; cbn; try discriminate; exact IH.
Qed.

(** The world goes from [w] to [w'] during a call: as [evolves], with
    calls to the collaborators among the events. *)
Record advances (this : nat) (es : ExecutionState) (evs : list Event)
    (w w' : World) (es' : ExecutionState) : Prop := {
  adv_trace : trace w' = trace w ++ evs;
  adv_disposables : disposables w' = disposables w;
  adv_watcher : watcher w' this = Some es';
  adv_step : watcher_step evs es es'
}.

Lemma evolves_advances this es evs w w' es' :
  evolves this es evs w w' es' -> advances this es evs w w' es'.
Proof. intros [T E D W S]. now split. Qed.

Lemma advances_trans (this : nat) (e1 e2 : list Event) (w0 w1 w2 : World)
    (a b c : ExecutionState) :
  advances this a e1 w0 w1 b -> advances this b e2 w1 w2 c ->
  advances this a (e1 ++ e2) w0 w2 c.
Proof.
  intros [T1 D1 W1 S1] [T2 D2 W2 S2]. split.
  - now rewrite T2, T1, app_assoc.
  - congruence.
  - exact W2.
  - eapply watcher_step_trans; eassumption.
Qed.

Lemma advances_emit (this : nat) (e : Event) (w : World) (es : ExecutionState) :
  watcher w this = Some es ->
  advances this es [e] w (mkWorld (heap w) (disposables w) (trace w ++ [e])) es.
Proof.
  intros H. split; auto. split; auto.
Qed.

(** The outcome of the two statements of the [finally] block. *)
Definition file_outcome (l : TemporaryFile) : outcome unit :=
  match dispose_throws l with
  | Some e => Fail e
  | None => Done tt
  end.

Lemma finally_run (this : nat) (l : TemporaryFile) (w : World)
    (es : ExecutionState) :
  watcher w this = Some es ->
  exists w' evs es',
    (ExecutionState_dispose this ;; TemporaryFile_dispose l) w
    = (file_outcome l, w')
    /\ advances this es (evs ++ [EvFileDispose (filePath l)]) w w' es'
    /\ sends evs = []
    /\ disposable es' = None
    /\ _completed es' = _completed es.
Proof.
  intros H.
  destruct (ExecutionState_dispose_run w this es H)
    as (w1 & evs & es1 & E & Ev & -> & _).
  exists (mkWorld (heap w1) (disposables w1)
            (trace w1 ++ [EvFileDispose (filePath l)])), evs,
    (set_disposable None es).
  split; [|split; [|split; [|split; reflexivity]]].
  - rewrite (bind_run _ _ _ _ _ E). unfold TemporaryFile_dispose, file_outcome.
    run. now destruct (dispose_throws l).
  - eapply advances_trans; [apply evolves_advances, Ev|].
    apply advances_emit. apply Ev.
  - apply sends_watcher_events, Ev.
Qed.

Section Call.

Variable shellExecFile : string.
Variable fileToCommandArgument : string -> string.

Let sendCommand' := sendCommand shellExecFile fileToCommandArgument.
Let rewritten_args' := rewritten_args shellExecFile fileToCommandArgument.

(** The interpreter [sendCommand] ends up with: the constructor's, or
    what the interpreter service answers. *)
Definition resolved_interpreter (this : Service) (env : Env)
  : Promise (option PythonInterpreter) :=
  match pythonInterpreter this with
  | Some i => Ok (Some i)
  | None => env_getActiveInterpreter env
  end.

(** The outcome of the [try] block when the race returns. *)
Definition try_outcome (this : Service) (env : Env) : outcome unit :=
  match resolved_interpreter this env with
  | Err e => Fail e
  | Ok _ => awaited (env_terminal_sendCommand env)
  end.

(** What the terminal is sent during the call. *)
Definition expected_sends (this : Service) (env : Env) (command : string)
    (args : list string) (l : TemporaryFile) : list (string * list string) :=
  match resolved_interpreter this env with
  | Err _ => []
  | Ok pythonExec => [(python_path pythonExec, rewritten_args' command args l)]
  end.

Lemma resolve_run (this : Service) (env : Env) (ref : nat) (w : World)
    (es : ExecutionState) :
  watcher w ref = Some es ->
  exists w' evs es',
    match pythonInterpreter this with
    | Some i => ret (Some i)
    | None =>
        p <- interpreter_getActiveInterpreter env ;;
        await_polling ref (env_reads_resolving env) p
    end w = (awaited (resolved_interpreter this env), w')
    /\ advances ref es evs w w' es'
    /\ sends evs = [].
Proof.
  intros H. unfold resolved_interpreter.
  destruct (pythonInterpreter this) as [i|].
  - exists w, [], es. split; [reflexivity|]. split; [|reflexivity].
    now apply evolves_advances, evolves_refl.
  - unfold interpreter_getActiveInterpreter. run.
    set (w1 := mkWorld _ _ _).
    assert (H1 : watcher w1 ref = Some es) by exact H.
    destruct (await_polling_run ref (env_reads_resolving env)
                (env_getActiveInterpreter env) w1 es H1)
      as (w' & evs & es' & E & Ev).
    exists w', ([EvGetActiveInterpreter] ++ evs), es'.
    split; [exact E|]. split.
    + eapply advances_trans; [|apply evolves_advances, Ev].
      apply advances_emit. exact H.
    + cbn. apply sends_watcher_events, Ev.
Qed.

Lemma try_run (this : Service) (env : Env) (command : string)
    (args : list string) (l : TemporaryFile) (token : CancellationToken)
    (ref : nat) (w : World) (es : ExecutionState) :
  watcher w ref = Some es ->
  exists r w' evs es',
    (pythonExec <-
       match pythonInterpreter this with
       | Some i => ret (Some i)
       | None =>
           p <- interpreter_getActiveInterpreter env ;;
           await_polling ref (env_reads_resolving env) p
       end ;;
     p <- terminalService_sendCommand env (python_path pythonExec)
            (rewritten_args' command args l) ;;
     await_polling ref (env_reads_sending env) p ;;
     Cancellation_race
       (d <- ExecutionState_completed ref ;; ret (catch_noop d))
       ref token (env_race env)) w = (r, w')
    /\ advances ref es evs w w' es'
    /\ sends evs = expected_sends this env command args l
    /\ (r = try_outcome this env
        \/ (r = Hang /\ try_outcome this env = Done tt
            /\ _completed es' = Pending)).
Proof.
  intros H.
  destruct (resolve_run this env ref w es H) as (w1 & e1 & es1 & E1 & A1 & S1).
  unfold try_outcome, expected_sends.
  destruct (resolved_interpreter this env) as [pythonExec|e].
  2:{ exists (Fail e), w1, e1, es1.
      split; [|split; [exact A1 | split; [exact S1 | now left]]].
      unfold bind at 1. now rewrite E1. }
  cbn [awaited] in E1. rewrite (bind_run _ _ _ _ _ E1).
  unfold terminalService_sendCommand. run.
  set (send := EvTerminalSendCommand _ _).
  set (w2 := mkWorld _ _ _).
  assert (H2 : watcher w2 ref = Some es1) by apply A1.
  assert (A2 : advances ref es (e1 ++ [send]) w w2 es1).
  { eapply advances_trans; [exact A1|].
    apply advances_emit. apply A1. }
  destruct (await_polling_run ref (env_reads_sending env)
              (env_terminal_sendCommand env) w2 es1 H2)
    as (w3 & e3 & es3 & E3 & Ev3).
  assert (A3 : advances ref es ((e1 ++ [send]) ++ e3) w w3 es3)
    by (eapply advances_trans; [exact A2 | apply evolves_advances, Ev3]).
  assert (S3 : sends ((e1 ++ [send]) ++ e3)
               = [(python_path pythonExec, rewritten_args' command args l)]).
  { rewrite !sends_app, S1, (sends_watcher_events e3) by apply Ev3.
    reflexivity. }
  rewrite E3.
  destruct (env_terminal_sendCommand env) as [[]|e]; cbn [awaited].
  2:{ exists (Fail e), w3, ((e1 ++ [send]) ++ e3), es3.
      split; [reflexivity|]. split; [exact A3|]. split; [exact S3 | now left]. }
  destruct (Cancellation_race_run ref token (env_race env) w3 es3
              (ev_watcher _ _ _ _ _ _ Ev3))
    as (r & w4 & e4 & es4 & E4 & Ev4 & R).
  exists r, w4, (((e1 ++ [send]) ++ e3) ++ e4), es4.
  split; [exact E4|].
  split; [eapply advances_trans; [exact A3 | apply evolves_advances, Ev4]|].
  split.
  - rewrite sends_app, S3, (sends_watcher_events e4) by apply Ev4. reflexivity.
  - destruct R as [->|[-> P]]; auto.
Qed.

Lemma createLockFile_run (env : Env) (w : World) :
  createLockFile env w =
  match env_createTemporaryFile env with
  | Ok l => (Done l, mkWorld (heap w) (disposables w ++ [l])
                       (trace w ++ [EvCreateTemporaryFile ".log"]))
  | Err e => (Fail e, mkWorld (heap w) (disposables w)
                        (trace w ++ [EvCreateTemporaryFile ".log"]))
  end.
Proof.
  unfold createLockFile, fs_createTemporaryFile. run.
  now destruct (env_createTemporaryFile env).
Qed.

(** The call as a whole, once the lock file exists: what it appends to the
    trace, what it leaves in [disposables], how the watcher ends, what the
    terminal was sent, and the outcome.  Either the call stays suspended
    in the race on a pending promise, or the [finally] block has run. *)
Lemma sendCommand_cancel_run (this : Service) (env : Env) (command : string)
    (args : list string) (token : CancellationToken) (w : World)
    (l : TemporaryFile) :
  env_createTemporaryFile env = Ok l ->
  exists r w' evs es',
    sendCommand' this env command args (Some token) w = (r, w')
    /\ trace w' = trace w ++ EvCreateTemporaryFile ".log"
                          :: EvSetInterval (List.length (heap w)) 100 :: evs
    /\ disposables w' = disposables w ++ [l]
    /\ watcher w' (List.length (heap w)) = Some es'
    /\ watcher_step evs
         (mkExecutionState St.notStarted Pending (Some (List.length (heap w)))
            (filePath l) (command :: args)) es'
    /\ sends evs = expected_sends this env command args l
    /\ ((r = Hang /\ try_outcome this env = Done tt /\ _completed es' = Pending)
        \/ (r = match file_outcome l with
                 | Done _ => try_outcome this env
                 | o => o
                 end
            /\ disposable es' = None
            /\ exists evs0, evs = evs0 ++ [EvFileDispose (filePath l)])).
Proof.
  intros Hl.
  set (ref := List.length (heap w)).
  set (es0 := mkExecutionState _ _ _ _ _).
  unfold sendCommand', sendCommand.
  pose proof (createLockFile_run env w) as Hc. rewrite Hl in Hc.
  rewrite (bind_run _ _ _ _ _ Hc).
  rewrite (bind_run _ _ _ _ _ (new_ExecutionState_run _ _ _)).
  cbn [heap disposables trace]. fold ref. fold es0.
  set (w2 := mkWorld _ _ _).
  assert (H2 : watcher w2 ref = Some es0) by apply nth_error_alloc.
  destruct (try_run this env command args l token ref w2 es0 H2)
    as (r & w3 & e3 & es3 & E3 & A3 & S3 & R3).
  unfold try_finally. fold rewritten_args'. rewrite E3.
  assert (T2 : trace w2 = trace w ++ [EvCreateTemporaryFile ".log";
                                      EvSetInterval ref 100]).
  { subst w2. cbn. now rewrite <- app_assoc. }
  destruct R3 as [->|(-> & O & P)].
  2:{ exists Hang, w3, e3, es3.
      split; [reflexivity|]. split.
      { rewrite (adv_trace _ _ _ _ _ _ A3), T2, <- app_assoc. reflexivity. }
      split; [apply A3|]. split; [apply A3|]. split; [apply A3|].
      split; [exact S3 | left; auto]. }
  destruct (finally_run ref l w3 es3 (adv_watcher _ _ _ _ _ _ A3))
    as (w4 & e4 & es4 & E4 & A4 & S4 & D4 & C4).
  pose proof (advances_trans _ _ _ _ _ _ _ _ _ A3 A4) as A.
  exists (match file_outcome l with Done _ => try_outcome this env | o => o end),
    w4, (e3 ++ e4 ++ [EvFileDispose (filePath l)]), es4.
  split.
  { rewrite E4. unfold file_outcome, try_outcome.
    destruct (resolved_interpreter this env);
      [destruct (env_terminal_sendCommand env)|];
      destruct (dispose_throws l); reflexivity. }
  split.
  { rewrite (adv_trace _ _ _ _ _ _ A), T2, <- app_assoc. reflexivity. }
  split; [apply A|]. split; [apply A|]. split; [apply A|].
  split.
  { rewrite !sends_app, S3, S4. cbn. now rewrite app_nil_r. }
  right. split; [reflexivity|]. split; [exact D4|].
  exists (e3 ++ e4). now rewrite app_assoc.
Qed.

(** C7: without a cancellation token, [sendCommand] hands [command] and
    [args], unchanged, to the terminal's [sendCommand] and settles as that
    call does.  Nothing else happens: no temporary file is created, no
    watcher is constructed (the heap and [disposables] are untouched, no
    interval is registered) and there is no race to wait in. *)
Theorem sendCommand_without_token_forwards (this : Service) (env : Env)
    (command : string) (args : list string) (w : World) :
  sendCommand' this env command args None w =
  (awaited (env_terminal_sendCommand env),
   mkWorld (heap w) (disposables w)
     (trace w ++ [EvTerminalSendCommand command args])).
Proof.
  unfold sendCommand', sendCommand, terminalService_sendCommand. run.
  now destruct (env_terminal_sendCommand env).
Qed.

(** C9: with a cancellation token, the first two things the call does are
    to create the lock file and to register the watcher's interval, so
    both come strictly before any invocation sent to the terminal; and
    when creating the lock file fails, the call rejects with that failure
    having done nothing else: no watcher, nothing sent to the terminal. *)
Theorem lock_file_and_watcher_precede_send (this : Service) (env : Env)
    (command : string) (args : list string) (token : CancellationToken)
    (w : World) :
  match env_createTemporaryFile env with
  | Ok l =>
      exists r w' evs,
        sendCommand' this env command args (Some token) w = (r, w')
        /\ trace w' = trace w ++ evs
        /\ forall c a before after,
             evs = before ++ EvTerminalSendCommand c a :: after ->
             In (EvCreateTemporaryFile ".log") before
             /\ In (EvSetInterval (List.length (heap w)) 100) before
  | Err e =>
      sendCommand' this env command args (Some token) w =
      (Fail e, mkWorld (heap w) (disposables w)
                 (trace w ++ [EvCreateTemporaryFile ".log"]))
  end.
Proof.
  destruct (env_createTemporaryFile env) as [l|e] eqn:Hl.
  - destruct (sendCommand_cancel_run this env command args token w l Hl)
      as (r & w' & evs & es' & E & T & _).
    exists r, w', (EvCreateTemporaryFile ".log"
                   :: EvSetInterval (List.length (heap w)) 100 :: evs).
    split; [exact E|]. split; [exact T|].
    intros c a before after Hsplit.
    destruct before as [|e1 [|e2 before]]; cbn in Hsplit.
    + discriminate.
    + injection Hsplit as _ Hsplit. discriminate.
    + injection Hsplit as <- <- _. cbn. auto.
  - unfold sendCommand', sendCommand.
    pose proof (createLockFile_run env w) as Hc. rewrite Hl in Hc.
    unfold bind. now rewrite Hc.
Qed.

(** C8: with a cancellation token and the lock file created, every way
    the call ends -- it returns or it throws, whatever the reason -- has
    the watcher disposed (its interval cleared and forgotten) and the lock
    file's [dispose()] called, last of all. *)
Theorem sendCommand_cleans_up (this : Service) (env : Env) (command : string)
    (args : list string) (token : CancellationToken) (w w' : World)
    (l : TemporaryFile) (r : outcome unit) :
  env_createTemporaryFile env = Ok l ->
  sendCommand' this env command args (Some token) w = (r, w') ->
  r <> Hang ->
  exists es' evs,
    watcher w' (List.length (heap w)) = Some es'
    /\ disposable es' = None
    /\ trace w' = trace w ++ evs ++ [EvFileDispose (filePath l)]
    /\ In (EvClearInterval (List.length (heap w))) evs.
Proof.
  intros Hl E NH.
  destruct (sendCommand_cancel_run this env command args token w l Hl)
    as (r0 & w0 & evs & es' & E0 & T & _ & W & S & _ & R).
  rewrite E in E0. injection E0 as <- <-.
  destruct R as [(-> & _)|(_ & D & evs0 & ->)]; [contradiction|].
  exists es', (EvCreateTemporaryFile ".log"
               :: EvSetInterval (List.length (heap w)) 100 :: evs0).
  split; [exact W|]. split; [exact D|]. split; [exact T|].
  destruct (step_disposable _ _ _ S) as [Same|(_ & h & Hh & I)].
  - rewrite D in Same. discriminate.
  - injection Hh as <-. right; right.
    apply in_app_or in I. destruct I as [I|[I|[]]]; [exact I | discriminate].
Qed.

(** ** [dispose()] of the service *)





(** C2, as the code has it: with a cancellation token, the lock file
    created and an interpreter resolved, exactly one invocation is sent to
    the terminal.  Its command is the interpreter's path (or "python"); its
    arguments are the quoted helper script, the quoted command, then
    [args] as they were given, then the quoted lock file path. *)
Theorem rewritten_invocation (this : Service) (env : Env) (command : string)
    (args : list string) (token : CancellationToken) (w : World)
    (l : TemporaryFile) (pythonExec : option PythonInterpreter) :
  env_createTemporaryFile env = Ok l ->
  resolved_interpreter this env = Ok pythonExec ->
  exists r w' evs,
    sendCommand' this env command args (Some token) w = (r, w')
    /\ trace w' = trace w ++ evs
    /\ sends evs =
       [(python_path pythonExec,
         [fileToCommandArgument shellExecFile; fileToCommandArgument command]
           ++ args ++ [fileToCommandArgument (filePath l)])].
Proof.
  intros Hl Hi.
  destruct (sendCommand_cancel_run this env command args token w l Hl)
    as (r & w' & evs & es' & E & T & _ & _ & _ & S & _).
  exists r, w', (EvCreateTemporaryFile ".log"
                 :: EvSetInterval (List.length (heap w)) 100 :: evs).
  split; [exact E|]. split; [exact T|].
  cbn [sends]. rewrite S. unfold expected_sends. now rewrite Hi.
Qed.


End Call.

(** * Concrete runs *)

Module Scenario.

(** A quoting function of the expected kind: a string with a space in it
    is wrapped in double quotes. *)
Definition quote_if_spaced (s : string) : string :=
  let dq := String (Ascii.ascii_of_nat 34) EmptyString in
  if includes s " " then (dq ++ s ++ dq)%string else s.

Definition shellExecFile : string := "/ext/pythonFiles/shell_exec.py".

Definition lock : TemporaryFile := mkTemporaryFile "/tmp/lock 1.log" None.

Definition service : Service := mkService None.

Definition token : CancellationToken := mkCancellationToken false.

(** The helper writes START, then FAIL; cancellation never fires. *)
Definition env_fail : Env :=
  mkEnv (Ok lock) (Ok None) (Ok tt) [] []
    [TimerTick (Ok "START"); TimerTick (Ok "STARTFAIL")].

(** The helper writes START, then END; cancellation never fires. *)
Definition env_end : Env :=
  mkEnv (Ok lock) (Ok None) (Ok tt) [] [Ok "START"]
    [TimerTick (Ok "START"); TimerTick (Ok "STARTEND")].

(** No marker is ever written; cancellation fires after one poll. *)
Definition env_cancelled : Env :=
  mkEnv (Ok lock) (Ok None) (Ok tt) [] []
    [TimerTick (Ok EmptyString); CancellationRequested].

(** The interpreter service fails after one poll. *)
Definition env_no_interpreter : Env :=
  mkEnv (Ok lock) (Err "no interpreter") (Ok tt) [Ok "START"] [] [].

(** The terminal fails to send. *)
Definition env_no_terminal : Env :=
  mkEnv (Ok lock) (Ok None) (Err "terminal closed") [] [] [].

(** The temporary file cannot be created. *)
Definition env_no_file : Env :=
  mkEnv (Err "ENOSPC") (Ok None) (Ok tt) [] [] [].

Definition run (env : Env) (command : string) (args : list string)
  : outcome unit * World :=
  sendCommand shellExecFile quote_if_spaced service env command args
    (Some token) initial_world.

(** A watcher that has just been constructed. *)
Definition fresh_world : World :=
  snd (new_ExecutionState "/tmp/lock 1.log" ["build"] initial_world).

Definition fresh_watcher : ExecutionState :=
  mkExecutionState St.notStarted Pending (Some O) "/tmp/lock 1.log" ["build"].

End Scenario.

(** The scenarios of the specification. *)
Example run_build_END :
  fst (Scenario.run Scenario.env_end "build" []) = Done tt.
Proof. reflexivity. Qed.

Example run_build_FAIL :
  fst (Scenario.run Scenario.env_fail "build" []) = Done tt.
Proof. reflexivity. Qed.

Example run_sleep_cancelled :
  fst (Scenario.run Scenario.env_cancelled "sleep" ["10"]) = Done tt.
Proof. reflexivity. Qed.

Example run_interpreter_error :
  Scenario.run Scenario.env_no_interpreter "build" []
  = (Fail "no interpreter",
     mkWorld
       [mkExecutionState 1 Pending None "/tmp/lock 1.log" ["build"]]
       [Scenario.lock]
       [EvCreateTemporaryFile ".log"; EvSetInterval 0 100;
        EvGetActiveInterpreter; EvReadFile "/tmp/lock 1.log";
        EvTraceVerbose "Command state changed to 1. build";
        EvClearInterval 0; EvFileDispose "/tmp/lock 1.log"]).
Proof. reflexivity. Qed.

Example run_terminal_error :
  fst (Scenario.run Scenario.env_no_terminal "build" [])
  = Fail "terminal closed"
  /\ trace (snd (Scenario.run Scenario.env_no_terminal "build" []))
     = [EvCreateTemporaryFile ".log"; EvSetInterval 0 100;
        EvGetActiveInterpreter;
        EvTerminalSendCommand "python"
          ["/ext/pythonFiles/shell_exec.py"; "build";
           Scenario.quote_if_spaced "/tmp/lock 1.log"];
        EvClearInterval 0; EvFileDispose "/tmp/lock 1.log"].
Proof. split; reflexivity. Qed.

Example run_echo_no_token :
  sendCommand Scenario.shellExecFile Scenario.quote_if_spaced Scenario.service
    Scenario.env_end "echo" ["hi"] None initial_world
  = (Done tt, mkWorld [] [] [EvTerminalSendCommand "echo" ["hi"]]).
Proof. reflexivity. Qed.



(** C2 as the specification states it: every argument of the invocation
    sent to the terminal, the elements of [args] included, is quoted. *)
Definition every_token_quoted (shellExecFile : string)
    (fileToCommandArgument : string -> string) (this : Service) (env : Env)
    (command : string) (args : list string) (token : CancellationToken)
    (w : World) : Prop :=
  forall l pythonExec r w',
    env_createTemporaryFile env = Ok l ->
    resolved_interpreter this env = Ok pythonExec ->
    sendCommand shellExecFile fileToCommandArgument this env command args
      (Some token) w = (r, w') ->
    exists evs,
      trace w' = trace w ++ evs
      /\ sends evs =
         [(python_path pythonExec,
           map fileToCommandArgument
             ([shellExecFile; command] ++ args ++ [filePath l]))].

(** C2 fails on the code: the argument "a b" reaches the terminal as it
    is, while the lock file path, which also has a space, is quoted. *)
Lemma args_are_not_quoted :
  ~ every_token_quoted Scenario.shellExecFile Scenario.quote_if_spaced
      Scenario.service Scenario.env_end "echo" ["a b"] Scenario.token
      initial_world.
Proof.
  intros H.
  edestruct H as (evs & T & S).
  - reflexivity.
  - reflexivity.
  - vm_compute. reflexivity.
  - cbn [trace initial_world app] in T. subst evs.
    vm_compute in S. discriminate S.
Qed.

(** ** The theorems at concrete inputs *)


Lemma poll_END_resolves_witness :
  exists w' es',
    poll 0 (Ok "END") Scenario.fresh_world = (Done tt, w')
    /\ watcher w' 0 = Some es'
    /\ _completed es' = settle Pending Resolved
    /\ (Pending = Pending -> _completed es' = Resolved).
Proof.
  apply (poll_END_resolves Scenario.fresh_world 0 Scenario.fresh_watcher "END").
  - reflexivity.
  - exists EmptyString, EmptyString. reflexivity.
  - apply includes_false. reflexivity.
Defined.

Lemma polling_without_marker_never_settles_witness :
  exists w' evs es',
    timer_fires_all 0 (map Ok [EmptyString; "START"]) Scenario.fresh_world
    = (Done tt, w')
    /\ trace w' = trace Scenario.fresh_world ++ evs
    /\ watcher w' 0 = Some es'
    /\ _completed es' = Pending
    /\ disposable es' = Some O
    /\ (Some O <> None -> count_reads evs = 2%nat).
Proof.
  apply (polling_without_marker_never_settles Scenario.fresh_world 0
           Scenario.fresh_watcher [EmptyString; "START"]).
  - reflexivity.
  - repeat constructor; apply includes_false; reflexivity.
Defined.

Lemma lock_file_and_watcher_precede_send_witness :
  (exists r w' evs,
     Scenario.run Scenario.env_end "build" [] = (r, w')
     /\ trace w' = trace initial_world ++ evs
     /\ forall c a before after,
          evs = before ++ EvTerminalSendCommand c a :: after ->
          In (EvCreateTemporaryFile ".log") before
          /\ In (EvSetInterval O 100) before)
  /\ Scenario.run Scenario.env_no_file "build" []
     = (Fail "ENOSPC", mkWorld [] [] [EvCreateTemporaryFile ".log"]).
Proof.
  split.
  - exact (lock_file_and_watcher_precede_send Scenario.shellExecFile
             Scenario.quote_if_spaced Scenario.service Scenario.env_end
             "build" [] Scenario.token initial_world).
  - exact (lock_file_and_watcher_precede_send Scenario.shellExecFile
             Scenario.quote_if_spaced Scenario.service Scenario.env_no_file
             "build" [] Scenario.token initial_world).
Defined.

Lemma sendCommand_cleans_up_witness :
  exists es' evs,
    watcher (snd (Scenario.run Scenario.env_cancelled "sleep" ["10"])) 0
    = Some es'
    /\ disposable es' = None
    /\ trace (snd (Scenario.run Scenario.env_cancelled "sleep" ["10"]))
       = trace initial_world ++ evs ++ [EvFileDispose "/tmp/lock 1.log"]
    /\ In (EvClearInterval 0) evs.
Proof.
  apply (sendCommand_cleans_up Scenario.shellExecFile Scenario.quote_if_spaced
           Scenario.service Scenario.env_cancelled "sleep" ["10"] Scenario.token
           initial_world _ Scenario.lock
           (fst (Scenario.run Scenario.env_cancelled "sleep" ["10"]))).
  - reflexivity.
  - reflexivity.
  - vm_compute. discriminate.
Defined.


Lemma rewritten_invocation_witness :
  exists r w' evs,
    Scenario.run Scenario.env_end "echo" ["a b"] = (r, w')
    /\ trace w' = trace initial_world ++ evs
    /\ sends evs =
       [("python",
         [Scenario.quote_if_spaced Scenario.shellExecFile;
          Scenario.quote_if_spaced "echo"]
           ++ ["a b"] ++ [Scenario.quote_if_spaced "/tmp/lock 1.log"])].
Proof.
  apply (rewritten_invocation Scenario.shellExecFile Scenario.quote_if_spaced
           Scenario.service Scenario.env_end "echo" ["a b"] Scenario.token
           initial_world Scenario.lock None).
  - reflexivity.
  - reflexivity.
Defined.



(** * Further properties of the watcher and of the service *)

(** ** The heap, again *)

Lemma update_update {A} (l : list A) (i : nat) (f g : A -> A) :
  update (update l i f) i g = update l i (fun x => g (f x)).
Proof.
  revert i; induction l as [|x l IH]; intros [|i]; cbn; auto.
  now rewrite IH.
Qed.

Lemma update_at {A} (l : list A) (i : nat) (f g : A -> A) (x : A) :
  nth_error l i = Some x -> f x = g x -> update l i f = update l i g.
Proof.
  revert i; induction l as [|y l IH]; intros [|i] H E; cbn in *; auto.
  - injection H as ->. now rewrite E.
  - now rewrite (IH i H E).
Qed.

Lemma update_same {A} (l : list A) (i : nat) (x : A) :
  nth_error l i = Some x -> update l i (fun _ => x) = l.
Proof.
  revert i; induction l as [|y l IH]; intros [|i] H; cbn in *; auto.
  - now injection H as ->.
  - now rewrite (IH i H).
Qed.

(** The world in which the watcher [this] has become [es'] after doing
    [evs], everything else being as in [w]. *)
Definition put (this : nat) (es' : ExecutionState) (evs : list Event)
    (w : World) : World :=
  mkWorld (update (heap w) this (fun _ => es')) (disposables w)
    (trace w ++ evs).

Lemma watcher_put (this : nat) (es es' : ExecutionState) (evs : list Event)
    (w : World) :
  watcher w this = Some es -> watcher (put this es' evs w) this = Some es'.
Proof.
  intros H. unfold watcher, put. cbn. rewrite nth_error_update_same.
  unfold watcher in H. now rewrite H.
Qed.

Lemma put_put (this : nat) (a b : ExecutionState) (e1 e2 : list Event)
    (w : World) :
  put this b e2 (put this a e1 w) = put this b (e1 ++ e2) w.
Proof.
  unfold put. cbn. now rewrite update_update, app_assoc.
Qed.

Lemma put_same (this : nat) (es : ExecutionState) (w : World) :
  watcher w this = Some es -> put this es [] w = w.
Proof.
  intros H. unfold put. rewrite (update_same _ _ _ H), app_nil_r.
  now destruct w.
Qed.

(** ** What the watcher's methods do, as functions of the watcher *)

(** [dispose()]. *)
Definition dispose_effect (es : ExecutionState) : ExecutionState * list Event :=
  match disposable es with
  | Some h => (set_disposable None es, [EvClearInterval h])
  | None => (es, [])
  end.

(** [_completed.resolve()] or [_completed.reject(e)], with the hook. *)
Definition settle_effect (d : Deferred) (es : ExecutionState)
  : ExecutionState * list Event :=
  match _completed es with
  | Pending => dispose_effect (set_completed d es)
  | _ => (es, [])
  end.

(** One poll iteration. *)
Definition poll_effect (es : ExecutionState) (read : result string)
  : ExecutionState * list Event :=
  match getLockFileState read with
  | Err _ => (es, [EvReadFile (lockFile es)])
  | Ok st =>
      let log := if negb (st =? state es)
                 then [EvTraceVerbose (state_changed_message st (command es))]
                 else [] in
      let next :=
        if has_flag st St.errored then
          settle_effect (Rejected (command_failed_message (command es)))
            (set_state st es)
        else if has_flag st St.completed then
          settle_effect Resolved (set_state st es)
        else (set_state st es, []) in
      (fst next, EvReadFile (lockFile es) :: log ++ snd next)
  end.

(** The interval elapses. *)
Definition tick_effect (es : ExecutionState) (read : result string)
  : ExecutionState * list Event :=
  match disposable es with
  | Some _ => poll_effect es read
  | None => (es, [])
  end.

Fixpoint ticks_effect (es : ExecutionState) (reads : list (result string))
  : ExecutionState * list Event :=
  match reads with
  | [] => (es, [])
  | read :: reads' =>
      let next := tick_effect es read in
      let rest := ticks_effect (fst next) reads' in
      (fst rest, snd next ++ snd rest)
  end.

Lemma ExecutionState_dispose_exact (this : nat) (w : World)
    (es : ExecutionState) :
  watcher w this = Some es ->
  ExecutionState_dispose this w =
  (Done tt, put this (fst (dispose_effect es)) (snd (dispose_effect es)) w).
Proof.
  intros H. unfold ExecutionState_dispose, dispose_effect. run.
  destruct (disposable es) as [h|] eqn:D; run; cbn [fst snd].
  - unfold put. do 2 f_equal.
    apply (update_at _ _ _ _ es); [exact H | reflexivity].
  - now rewrite (put_same _ _ _ H).
Qed.

Lemma completed_settle_exact (this : nat) (d : Deferred) (w : World)
    (es : ExecutionState) :
  watcher w this = Some es ->
  completed_settle this d w =
  (Done tt, put this (fst (settle_effect d es)) (snd (settle_effect d es)) w).
Proof.
  intros H. unfold completed_settle, settle_effect. run.
  destruct (_completed es) eqn:C; run; cbn [fst snd];
    try now rewrite (put_same _ _ _ H).
  set (w1 := mkWorld _ _ _).
  assert (H1 : watcher w1 this = Some (set_completed d es))
    by (subst w1; run; reflexivity).
  rewrite (ExecutionState_dispose_exact _ _ _ H1).
  f_equal. subst w1. unfold put. cbn [heap disposables trace].
  now rewrite update_update.
Qed.

Lemma put_intro (this : nat) (es : ExecutionState)
    (f : ExecutionState -> ExecutionState) (evs : list Event) (w : World) :
  watcher w this = Some es ->
  mkWorld (update (heap w) this f) (disposables w) (trace w ++ evs)
  = put this (f es) evs w.
Proof.
  intros H. unfold put. f_equal.
  apply (update_at _ _ _ _ es); [exact H | reflexivity].
Qed.

Lemma poll_exact (this : nat) (read : result string) (w : World)
    (es : ExecutionState) :
  watcher w this = Some es ->
  poll this read w =
  (Done tt, put this (fst (poll_effect es read)) (snd (poll_effect es read)) w).
Proof.
  intros H. unfold poll, poll_effect, completed_reject, completed_resolve.
  run.
  destruct (getLockFileState read) as [st|e]; run; cbn [fst snd].
  2:{ f_equal. unfold put. now rewrite (update_same _ _ _ H). }
  set (log := if negb (st =? state es)
              then [EvTraceVerbose (state_changed_message st (command es))]
              else []).
  set (pre := EvReadFile (lockFile es) :: log).
  assert (G : forall (k : M unit),
             (let (o, w') :=
                (if negb (st =? state es)
                 then fun w0 => (Done tt, mkWorld (heap w0) (disposables w0)
                    (trace w0 ++ [EvTraceVerbose
                       (state_changed_message st (command es))]))
                 else fun w0 => (Done tt, w0))
                  (mkWorld (heap w) (disposables w)
                     (trace w ++ [EvReadFile (lockFile es)])) in
              match o with
              | Done _ => k (mkWorld (update (heap w') this (set_state st))
                               (disposables w') (trace w'))
              | Fail e => (Fail e, w')
              | Hang => (Hang, w')
              end) = k (put this (set_state st es) pre w)).
  { intros k. rewrite <- (put_intro _ _ _ _ _ H). subst pre log.
    destruct (negb (st =? state es)); cbn; rewrite <- ?app_assoc; reflexivity. }
  assert (H1 : watcher (put this (set_state st es) pre w) this
               = Some (set_state st es)) by (eapply watcher_put; exact H).
  rewrite G.
  destruct (has_flag st St.errored);
    [|destruct (has_flag st St.completed)].
  - rewrite (completed_settle_exact _ _ _ _ H1), put_put.
    subst pre. now rewrite <- app_comm_cons.
  - rewrite (completed_settle_exact _ _ _ _ H1), put_put.
    subst pre. now rewrite <- app_comm_cons.
  - cbn [fst snd]. subst pre. now rewrite app_nil_r.
Qed.

Lemma timer_fires_exact (this : nat) (read : result string) (w : World)
    (es : ExecutionState) :
  watcher w this = Some es ->
  timer_fires this read w =
  (Done tt, put this (fst (tick_effect es read)) (snd (tick_effect es read)) w).
Proof.
  intros H. unfold timer_fires, tick_effect. run.
  destruct (disposable es).
  - now apply poll_exact.
  - cbn [fst snd]. now rewrite (put_same _ _ _ H).
Qed.

Lemma timer_fires_all_exact (this : nat) (reads : list (result string))
    (w : World) (es : ExecutionState) :
  watcher w this = Some es ->
  timer_fires_all this reads w =
  (Done tt,
   put this (fst (ticks_effect es reads)) (snd (ticks_effect es reads)) w).
Proof.
  revert w es. induction reads as [|read reads IH]; intros w es H.
  - cbn. now rewrite (put_same _ _ _ H).
  - cbn [timer_fires_all ticks_effect fst snd].
    rewrite (bind_run _ _ _ _ _ (timer_fires_exact _ read _ _ H)).
    rewrite (IH _ _ (watcher_put _ _ _ _ _ H)). now rewrite put_put.
Qed.

(** ** Counting events *)

Definition count_if (p : Event -> bool) (evs : list Event) : nat :=
  List.length (filter p evs).

Lemma count_if_app (p : Event -> bool) (e1 e2 : list Event) :
  count_if p (e1 ++ e2) = (count_if p e1 + count_if p e2)%nat.
Proof. unfold count_if. now rewrite filter_app, length_app. Qed.

Lemma count_if_none (p : Event -> bool) (evs : list Event) :
  (forall e, In e evs -> p e = false) -> count_if p evs = O.
Proof.
  induction evs as [|e evs IH]; intros H; [reflexivity|].
  unfold count_if in *. cbn. rewrite (H e (or_introl eq_refl)).
  apply IH. intros e' I. apply H. now right.
Qed.

Definition is_clear (e : Event) : bool :=
  match e with EvClearInterval _ => true | _ => false end.

Definition is_read (e : Event) : bool :=
  match e with EvReadFile _ => true | _ => false end.

Definition is_log (e : Event) : bool :=
  match e with EvTraceVerbose _ => true | _ => false end.

Definition is_query (e : Event) : bool :=
  match e with EvGetActiveInterpreter => true | _ => false end.

Definition is_file_dispose (e : Event) : bool :=
  match e with EvFileDispose _ => true | _ => false end.

Definition is_send (e : Event) : bool :=
  match e with EvTerminalSendCommand _ _ => true | _ => false end.

(** An event no watcher produces. *)
Definition foreign (p : Event -> bool) : Prop :=
  forall e, p e = true -> watcher_event e = false.

Lemma count_if_foreign (p : Event -> bool) (evs : list Event) :
  foreign p -> forallb watcher_event evs = true -> count_if p evs = O.
Proof.
  intros F W. apply count_if_none. intros e I.
  rewrite forallb_forall in W. specialize (W e I).
  destruct (p e) eqn:P; [|reflexivity]. rewrite (F e P) in W. discriminate.
Qed.

(** ** What a sequence of ticks can do to a watcher *)

Record ticked (es : ExecutionState) (evs : list Event) (es' : ExecutionState)
  : Prop := {
  tk_lockFile : lockFile es' = lockFile es;
  tk_command : command es' = command es;
  tk_events : forallb watcher_event evs = true;
  tk_clears :
    count_if is_clear evs =
    match disposable es, disposable es' with
    | Some _, None => 1%nat
    | _, _ => O
    end;
  tk_frozen : disposable es = None -> es' = es /\ evs = [];
  tk_pending :
    _completed es' = Pending ->
    _completed es = Pending /\ disposable es' = disposable es;
  tk_settled :
    _completed es = Pending -> _completed es' <> Pending ->
    disposable es' = None
    /\ (_completed es' = Resolved
        \/ _completed es' = Rejected (command_failed_message (command es)));
  tk_keeps : _completed es <> Pending -> _completed es' = _completed es
}.

Lemma ticked_refl (es : ExecutionState) : ticked es [] es.
Proof.
  split; auto; try (intros; contradiction).
  now destruct (disposable es).
Qed.

Lemma ticked_trans (a b c : ExecutionState) (e1 e2 : list Event) :
  ticked a e1 b -> ticked b e2 c -> ticked a (e1 ++ e2) c.
Proof.
  intros [L1 C1 E1 K1 F1 P1 S1 Q1] [L2 C2 E2 K2 F2 P2 S2 Q2]. split.
  - congruence.
  - congruence.
  - now rewrite forallb_app, E1, E2.
  - rewrite count_if_app, K1, K2.
    destruct (disposable a) eqn:Da.
    + destruct (disposable b) eqn:Db.
      * now destruct (disposable c).
      * destruct (F2 eq_refl) as [-> _]. now rewrite Db.
    + destruct (F1 eq_refl) as [-> _]. rewrite Da. reflexivity.
  - intros Da. destruct (F1 Da) as [-> ->]. now apply F2.
  - intros Pc. destruct (P2 Pc) as [Pb Db]. destruct (P1 Pb) as [Pa Dab].
    split; congruence.
  - intros Pa Sc. destruct (_completed b) eqn:Cb.
    + destruct (S2 eq_refl Sc) as [D R]. split; [exact D | now rewrite <- C1].
    + destruct (S1 Pa) as [D R]; [congruence|].
      destruct (F2 D) as [-> _]. split; [exact D|]. now rewrite Cb.
    + destruct (S1 Pa) as [D R]; [congruence|].
      destruct (F2 D) as [-> _]. split; [exact D|]. now rewrite Cb.
  - intros Sa. rewrite Q2; [now apply Q1 | rewrite (Q1 Sa); exact Sa].
Qed.


Lemma tick_effect_ticked (es : ExecutionState) (read : result string) :
  ticked es (snd (tick_effect es read)) (fst (tick_effect es read)).
Proof.
  unfold tick_effect. destruct (disposable es) as [h|] eqn:D.
  2:{ cbn [fst snd]. apply ticked_refl. }
  unfold poll_effect.
  destruct (getLockFileState read) as [st|e]; cbn [fst snd].
  2:{ split; auto; try (intros; congruence). now rewrite D. }
  set (log := if negb (st =? state es) then _ else _).
  assert (Hlog : forallb watcher_event log = true /\ count_if is_clear log = O)
    by (subst log; destruct (negb (st =? state es)); split; reflexivity).
  destruct Hlog as [Wlog Clog].
  assert (Hcount : forall tl, count_if is_clear (EvReadFile (lockFile es) :: log ++ tl)
                              = count_if is_clear tl).
  { intros tl. change (EvReadFile (lockFile es) :: log ++ tl)
      with ([EvReadFile (lockFile es)] ++ log ++ tl).
    now rewrite !count_if_app, Clog. }
  assert (Hev : forall tl, forallb watcher_event tl = true ->
                forallb watcher_event (EvReadFile (lockFile es) :: log ++ tl) = true).
  { intros tl Wtl. cbn. now rewrite forallb_app, Wlog, Wtl. }
  unfold settle_effect, dispose_effect; cbn [_completed disposable set_state
    set_completed].
  rewrite D.
  destruct (has_flag st St.errored);
    [|destruct (has_flag st St.completed)];
    destruct (_completed es) eqn:C; cbn [fst snd];
    (split; cbn [lockFile command _completed disposable set_state
                   set_completed set_disposable];
     [reflexivity | reflexivity | apply Hev; reflexivity
     | rewrite Hcount, ?D; reflexivity
     | intros X; congruence
     | intros X; try discriminate X; split; congruence
     | intros X Y; try congruence; auto
     | intros X; congruence ]).
Qed.

Lemma ticks_effect_ticked (es : ExecutionState) (reads : list (result string)) :
  ticked es (snd (ticks_effect es reads)) (fst (ticks_effect es reads)).
Proof.
  revert es. induction reads as [|read reads IH]; intros es.
  - apply ticked_refl.
  - cbn [ticks_effect fst snd].
    eapply ticked_trans; [apply tick_effect_ticked | apply IH].
Qed.

(** ** The state derived from the lock file, further *)

Lemma string_app_assoc (a b c : string) :
  ((a ++ b) ++ c = a ++ (b ++ c))%string.
Proof. induction a as [|x a IH]; cbn; [reflexivity | now rewrite IH]. Qed.

Lemma Contains_grows (pre source post search : string) :
  Contains source search -> Contains (pre ++ source ++ post)%string search.
Proof.
  intros (a & b & ->). exists (pre ++ a)%string, (b ++ post)%string.
  now rewrite !string_app_assoc.
Qed.

Lemma includes_grows (pre source post search : string) :
  includes source search = true ->
  includes (pre ++ source ++ post)%string search = true.
Proof. rewrite !includes_spec. apply Contains_grows. Qed.

(** The derived state is one of 0, 1, 2, 3, 6, 7: the Errored bit never
    comes without the Completed bit, whatever the lock file holds. *)
Theorem getLockFileState_errored_is_completed (source : string) :
  exists st : State,
    getLockFileState (Ok source) = Ok st
    /\ In st [0; 1; 2; 3; 6; 7]
    /\ implb (has_flag st St.errored) (has_flag st St.completed) = true.
Proof.
  eexists. split; [apply getLockFileState_flags|].
  destruct (includes source "START"), (includes source "END"),
    (includes source "FAIL"); cbv; intuition congruence.
Qed.

(** Text added before or after the contents of the lock file never clears
    a bit of the derived state: a file that has reached a terminal marker
    stays terminal as it grows. *)
Theorem getLockFileState_grows (pre source post : string) :
  exists st st' : State,
    getLockFileState (Ok source) = Ok st
    /\ getLockFileState (Ok (pre ++ source ++ post)%string) = Ok st'
    /\ Z.lor st st' = st'.
Proof.
  eexists _, _. split; [apply getLockFileState_flags|].
  split; [apply getLockFileState_flags|].
  pose proof (includes_grows pre source post "START") as S.
  pose proof (includes_grows pre source post "END") as E.
  pose proof (includes_grows pre source post "FAIL") as F.
  destruct (includes source "START"), (includes source "END"),
    (includes source "FAIL");
    rewrite ?S, ?E, ?F by reflexivity;
    destruct (includes (pre ++ source ++ post) "START"),
      (includes (pre ++ source ++ post) "END"),
      (includes (pre ++ source ++ post) "FAIL"); reflexivity.
Qed.

(** ** Poll iterations, further *)



(** A poll iteration that reads the file stores the derived state in the
    watcher's [state], reads the file once, and writes one log line
    exactly when the derived state differs from the stored one. *)
Theorem poll_logs_state_changes (this : nat) (w : World) (es : ExecutionState)
    (source : string) :
  watcher w this = Some es ->
  exists st w' evs es',
    getLockFileState (Ok source) = Ok st
    /\ poll this (Ok source) w = (Done tt, w')
    /\ trace w' = trace w ++ evs
    /\ watcher w' this = Some es'
    /\ state es' = st
    /\ count_if is_read evs = 1%nat
    /\ count_if is_log evs = (if st =? state es then O else 1%nat)
    /\ (st <> state es ->
        In (EvTraceVerbose (state_changed_message st (command es))) evs).
Proof.
  intros H.
  destruct (getLockFileState_markers source) as (st & G & _).
  exists st, (put this (fst (poll_effect es (Ok source)))
                (snd (poll_effect es (Ok source))) w),
    (snd (poll_effect es (Ok source))), (fst (poll_effect es (Ok source))).
  split; [exact G|]. split; [now apply poll_exact|].
  split; [reflexivity|]. split; [eapply watcher_put; exact H|].
  unfold poll_effect. rewrite G. cbn [fst snd].
  assert (T : forall d, state (fst (settle_effect d (set_state st es))) = st
                        /\ count_if is_read (snd (settle_effect d (set_state st es))) = O
                        /\ count_if is_log (snd (settle_effect d (set_state st es))) = O).
  { intros d. unfold settle_effect, dispose_effect.
    cbn [_completed disposable set_state set_completed].
    destruct (_completed es), (disposable es); repeat split. }
  set (next := if has_flag st St.errored then _ else _).
  assert (N : state (fst next) = st /\ count_if is_read (snd next) = O
              /\ count_if is_log (snd next) = O).
  { subst next. destruct (has_flag st St.errored);
      [apply T | destruct (has_flag st St.completed); [apply T | repeat split]]. }
  destruct N as (N1 & N2 & N3).
  split; [exact N1|].
  destruct (Z.eqb_spec st (state es)) as [E|E]; cbn [negb].
  - split; [|split].
    + change (count_if is_read ([EvReadFile (lockFile es)] ++ [] ++ snd next) = 1%nat).
      now rewrite !count_if_app, N2.
    + change (count_if is_log ([EvReadFile (lockFile es)] ++ [] ++ snd next) = O).
      now rewrite !count_if_app, N3.
    + intros X. contradiction.
  - split; [|split].
    + change (count_if is_read ([EvReadFile (lockFile es)]
                ++ [EvTraceVerbose (state_changed_message st (command es))]
                ++ snd next) = 1%nat).
      now rewrite !count_if_app, N2.
    + change (count_if is_log ([EvReadFile (lockFile es)]
                ++ [EvTraceVerbose (state_changed_message st (command es))]
                ++ snd next) = 1%nat).
      now rewrite !count_if_app, N3.
    + intros _. right. left. reflexivity.
Qed.

(** ** The life of a watcher *)

Lemma dispose_effect_twice (es : ExecutionState) :
  dispose_effect (fst (dispose_effect es)) = (fst (dispose_effect es), []).
Proof.
  unfold dispose_effect. destruct (disposable es) eqn:D; cbn; now rewrite ?D.
Qed.

(** [dispose()] of a watcher is idempotent: it clears the interval at most
    once, and a second call changes nothing. *)
Theorem ExecutionState_dispose_idempotent (this : nat) (w : World)
    (es : ExecutionState) :
  watcher w this = Some es ->
  exists w1,
    ExecutionState_dispose this w = (Done tt, w1)
    /\ trace w1 = trace w ++ match disposable es with
                            | Some h => [EvClearInterval h]
                            | None => []
                            end
    /\ ExecutionState_dispose this w1 = (Done tt, w1).
Proof.
  intros H.
  exists (put this (fst (dispose_effect es)) (snd (dispose_effect es)) w).
  split; [now apply ExecutionState_dispose_exact|]. split.
  - unfold dispose_effect. now destruct (disposable es).
  - pose proof (watcher_put _ _ (fst (dispose_effect es))
                  (snd (dispose_effect es)) _ H) as H1.
    rewrite (ExecutionState_dispose_exact _ _ _ H1), dispose_effect_twice.
    cbn [fst snd]. now rewrite (put_same _ _ _ H1).
Qed.



(** Ticks that see no terminal marker, on a registered interval. *)
Lemma ticks_effect_no_marker (es : ExecutionState) (h : nat)
    (sources : list string) :
  disposable es = Some h ->
  Forall no_marker sources ->
  let es' := fst (ticks_effect es (map Ok sources)) in
  let evs := snd (ticks_effect es (map Ok sources)) in
  _completed es' = _completed es
  /\ disposable es' = Some h
  /\ command es' = command es
  /\ count_if is_read evs = List.length sources.
Proof.
  intros D F. revert es D.
  induction F as [|source sources [NE NF] F IH]; intros es D;
    cbn [map ticks_effect fst snd].
  - auto.
  - destruct (getLockFileState_quiet source NE NF) as (st & G & Ferr & Fcomp).
    assert (T : tick_effect es (Ok source) =
                (set_state st es,
                 EvReadFile (lockFile es)
                 :: (if negb (st =? state es)
                     then [EvTraceVerbose (state_changed_message st (command es))]
                     else []) ++ [])).
    { unfold tick_effect, poll_effect. now rewrite D, G, Ferr, Fcomp. }
    rewrite T. cbn [fst snd].
    destruct (IH (set_state st es) D) as (C1 & D1 & M1 & R1).
    split; [exact C1|]. split; [exact D1|]. split; [exact M1|].
    rewrite count_if_app, R1.
    destruct (negb (st =? state es)); reflexivity.
Qed.


(** The interval of a watcher lives from its construction to the
    settlement of its promise: after any ticks on a new watcher, the
    interval is cleared if and only if the promise is settled. *)
Theorem interval_lives_until_settlement (file : string) (cmd : list string)
    (reads : list (result string)) (w : World) :
  exists w1 w2 es',
    new_ExecutionState file cmd w = (Done (List.length (heap w)), w1)
    /\ timer_fires_all (List.length (heap w)) reads w1 = (Done tt, w2)
    /\ watcher w2 (List.length (heap w)) = Some es'
    /\ disposable es' =
       (if settled (_completed es') then None
        else Some (List.length (heap w))).
Proof.
  set (this := List.length (heap w)).
  set (es0 := mkExecutionState St.notStarted Pending (Some this) file cmd).
  eexists _, _, _. split; [apply new_ExecutionState_run|].
  fold this. fold es0. set (w1 := mkWorld _ _ _).
  assert (H1 : watcher w1 this = Some es0) by apply nth_error_alloc.
  split; [apply (timer_fires_all_exact _ _ _ _ H1)|].
  split; [eapply watcher_put; exact H1|].
  pose proof (ticks_effect_ticked es0 reads) as T.
  set (es' := fst (ticks_effect es0 reads)) in *.
  destruct (_completed es') eqn:C; cbn [settled].
  - now destruct (tk_pending _ _ _ T C) as [_ D'].
  - apply (tk_settled _ _ _ T eq_refl). congruence.
  - apply (tk_settled _ _ _ T eq_refl). congruence.
Qed.

(** ** What a call does, as a function of the scenario *)

(** The race over [state.completed.catch(noop)]: its outcome, the watcher
    it leaves and what the watcher did meanwhile. *)
Fixpoint race_effect (es : ExecutionState) (schedule : list RaceEvent)
  : outcome unit * (ExecutionState * list Event) :=
  match catch_noop (_completed es) with
  | Resolved => (Done tt, (es, []))
  | Rejected e => (Fail e, (es, []))
  | Pending =>
      match schedule with
      | [] => (Hang, (es, []))
      | CancellationRequested :: _ => (Done tt, (es, []))
      | TimerTick read :: schedule' =>
          let next := tick_effect es read in
          let rest := race_effect (fst next) schedule' in
          (fst rest, (fst (snd rest), snd next ++ snd (snd rest)))
      end
  end.

Definition Cancellation_race_effect (token : CancellationToken)
    (es : ExecutionState) (schedule : list RaceEvent)
  : outcome unit * (ExecutionState * list Event) :=
  if isCancellationRequested token then (Done tt, (es, []))
  else race_effect es schedule.

Lemma race_loop_exact (this : nat) (schedule : list RaceEvent) (w : World)
    (es : ExecutionState) :
  watcher w this = Some es ->
  race_loop (d <- ExecutionState_completed this ;; ret (catch_noop d))
    this schedule w
  = (fst (race_effect es schedule),
     put this (fst (snd (race_effect es schedule)))
       (snd (snd (race_effect es schedule))) w).
Proof.
  revert w es. induction schedule as [|ev schedule IH]; intros w es H.
  - cbn [race_loop race_effect]. unfold ExecutionState_completed. run.
    destruct (_completed es); cbn [catch_noop fst snd];
      now rewrite (put_same _ _ _ H).
  - cbn [race_loop race_effect]. unfold ExecutionState_completed. run.
    destruct (_completed es) eqn:C; cbn [catch_noop fst snd];
      try now rewrite (put_same _ _ _ H).
    destruct ev as [read|]; cbn [fst snd];
      [|now rewrite (put_same _ _ _ H)].
    rewrite (timer_fires_exact _ read _ _ H).
    rewrite (IH _ _ (watcher_put _ _ _ _ _ H)). now rewrite put_put.
Qed.

Lemma Cancellation_race_exact (this : nat) (token : CancellationToken)
    (schedule : list RaceEvent) (w : World) (es : ExecutionState) :
  watcher w this = Some es ->
  Cancellation_race (d <- ExecutionState_completed this ;; ret (catch_noop d))
    this token schedule w
  = (fst (Cancellation_race_effect token es schedule),
     put this (fst (snd (Cancellation_race_effect token es schedule)))
       (snd (snd (Cancellation_race_effect token es schedule))) w).
Proof.
  intros H. unfold Cancellation_race, Cancellation_race_effect.
  destruct (isCancellationRequested token).
  - cbn [fst snd]. now rewrite (put_same _ _ _ H).
  - now apply race_loop_exact.
Qed.

Section CallEffect.

Variable shellExecFile : string.
Variable fileToCommandArgument : string -> string.

(** While the interpreter is resolved. *)
Definition resolve_effect (this : Service) (env : Env) (es : ExecutionState)
  : ExecutionState * list Event :=
  match pythonInterpreter this with
  | Some _ => (es, [])
  | None =>
      (fst (ticks_effect es (env_reads_resolving env)),
       EvGetActiveInterpreter :: snd (ticks_effect es (env_reads_resolving env)))
  end.

(** The [try] block. *)
Definition try_effect (this : Service) (env : Env) (command : string)
    (args : list string) (l : TemporaryFile) (token : CancellationToken)
    (es : ExecutionState) : outcome unit * (ExecutionState * list Event) :=
  let r1 := resolve_effect this env es in
  match resolved_interpreter this env with
  | Err e => (Fail e, r1)
  | Ok pythonExec =>
      let send :=
        EvTerminalSendCommand (python_path pythonExec)
          (rewritten_args shellExecFile fileToCommandArgument command args l) in
      let r2 := ticks_effect (fst r1) (env_reads_sending env) in
      match env_terminal_sendCommand env with
      | Err e => (Fail e, (fst r2, snd r1 ++ send :: snd r2))
      | Ok _ =>
          let r3 := Cancellation_race_effect token (fst r2) (env_race env) in
          (fst r3,
           (fst (snd r3), snd r1 ++ send :: snd r2 ++ snd (snd r3)))
      end
  end.

(** The call from the construction of the watcher on: the [try] block
    and, unless it stays suspended, the [finally] block. *)
Definition call_effect (this : Service) (env : Env) (command : string)
    (args : list string) (l : TemporaryFile) (token : CancellationToken)
    (es : ExecutionState) : outcome unit * (ExecutionState * list Event) :=
  let t := try_effect this env command args l token es in
  match fst t with
  | Hang => t
  | r =>
      let d := dispose_effect (fst (snd t)) in
      (match file_outcome l with Done _ => r | o => o end,
       (fst d, snd (snd t) ++ snd d ++ [EvFileDispose (filePath l)]))
  end.

Lemma resolve_exact (this : Service) (env : Env) (ref : nat) (w : World)
    (es : ExecutionState) :
  watcher w ref = Some es ->
  match pythonInterpreter this with
  | Some i => ret (Some i)
  | None =>
      p <- interpreter_getActiveInterpreter env ;;
      await_polling ref (env_reads_resolving env) p
  end w
  = (awaited (resolved_interpreter this env),
     put ref (fst (resolve_effect this env es))
       (snd (resolve_effect this env es)) w).
Proof.
  intros H. unfold resolved_interpreter, resolve_effect.
  destruct (pythonInterpreter this) as [i|]; cbn [fst snd].
  - now rewrite (put_same _ _ _ H).
  - unfold interpreter_getActiveInterpreter, await_polling. run.
    set (w1 := mkWorld _ _ _).
    assert (H1 : watcher w1 ref = Some es) by exact H.
    rewrite (timer_fires_all_exact _ _ _ _ H1).
    assert (W : put ref (fst (ticks_effect es (env_reads_resolving env)))
                  (snd (ticks_effect es (env_reads_resolving env))) w1
                = put ref (fst (ticks_effect es (env_reads_resolving env)))
                    (EvGetActiveInterpreter
                     :: snd (ticks_effect es (env_reads_resolving env))) w).
    { subst w1. unfold put. cbn. now rewrite <- app_assoc. }
    rewrite W. now destruct (env_getActiveInterpreter env).
Qed.

Lemma try_exact (this : Service) (env : Env) (command : string)
    (args : list string) (l : TemporaryFile) (token : CancellationToken)
    (ref : nat) (w : World) (es : ExecutionState) :
  watcher w ref = Some es ->
  (pythonExec <-
     match pythonInterpreter this with
     | Some i => ret (Some i)
     | None =>
         p <- interpreter_getActiveInterpreter env ;;
         await_polling ref (env_reads_resolving env) p
     end ;;
   p <- terminalService_sendCommand env (python_path pythonExec)
          (rewritten_args shellExecFile fileToCommandArgument command args l) ;;
   await_polling ref (env_reads_sending env) p ;;
   Cancellation_race
     (d <- ExecutionState_completed ref ;; ret (catch_noop d))
     ref token (env_race env)) w
  = (fst (try_effect this env command args l token es),
     put ref (fst (snd (try_effect this env command args l token es)))
       (snd (snd (try_effect this env command args l token es))) w).
Proof.
  intros H. pose proof (resolve_exact this env ref w es H) as E1.
  unfold try_effect.
  set (r1 := resolve_effect this env es) in *.
  destruct (resolved_interpreter this env) as [pythonExec|e]; cbn [awaited] in E1.
  2:{ unfold bind at 1. now rewrite E1. }
  rewrite (bind_run _ _ _ _ _ E1).
  pose proof (watcher_put _ _ (fst r1) (snd r1) _ H) as H1.
  set (send := EvTerminalSendCommand _ _).
  unfold terminalService_sendCommand, await_polling. run. fold send.
  set (w2 := mkWorld _ _ _).
  assert (W2 : w2 = put ref (fst r1) (snd r1 ++ [send]) w).
  { subst w2. unfold put. cbn. now rewrite <- app_assoc. }
  assert (H2 : watcher w2 ref = Some (fst r1)) by exact H1.
  rewrite (timer_fires_all_exact _ _ _ _ H2).
  set (r2 := ticks_effect (fst r1) (env_reads_sending env)).
  rewrite W2, put_put.
  assert (H3 : watcher (put ref (fst r2) ((snd r1 ++ [send]) ++ snd r2) w) ref
               = Some (fst r2)) by (eapply watcher_put; exact H).
  destruct (env_terminal_sendCommand env) as [[]|e]; cbn [settle_with fst snd].
  2:{ unfold throw. now rewrite <- app_assoc. }
  unfold ret. rewrite (Cancellation_race_exact _ _ _ _ _ H3), put_put.
  now rewrite <- !app_assoc.
Qed.

(** A call with a token whose lock file could be created: the outcome and
    the world it leaves. *)
Lemma sendCommand_exact (this : Service) (env : Env) (command : string)
    (args : list string) (token : CancellationToken) (w : World)
    (l : TemporaryFile) :
  env_createTemporaryFile env = Ok l ->
  let ref := List.length (heap w) in
  let c := call_effect this env command args l token
             (mkExecutionState St.notStarted Pending (Some ref) (filePath l)
                (command :: args)) in
  sendCommand shellExecFile fileToCommandArgument this env command args
    (Some token) w
  = (fst c,
     mkWorld (heap w ++ [fst (snd c)]) (disposables w ++ [l])
       (trace w ++ EvCreateTemporaryFile ".log"
          :: EvSetInterval ref 100 :: snd (snd c))).
Proof.
  intros Hl ref.
  set (es0 := mkExecutionState _ _ _ _ _). intros c.
  unfold sendCommand.
  pose proof (createLockFile_run env w) as Hc. rewrite Hl in Hc.
  rewrite (bind_run _ _ _ _ _ Hc).
  rewrite (bind_run _ _ _ _ _ (new_ExecutionState_run _ _ _)).
  cbn [heap disposables trace]. fold ref. fold es0.
  set (w2 := mkWorld _ _ _).
  assert (H2 : watcher w2 ref = Some es0) by apply nth_error_alloc.
  assert (P : forall es' evs,
             put ref es' evs w2 =
             mkWorld (heap w ++ [es']) (disposables w ++ [l])
               (trace w ++ EvCreateTemporaryFile ".log"
                  :: EvSetInterval ref 100 :: evs)).
  { intros es' evs. subst w2. unfold put. cbn [heap disposables trace].
    subst ref. rewrite update_alloc, <- !app_assoc. reflexivity. }
  unfold try_finally.
  rewrite (try_exact this env command args l token ref w2 es0 H2).
  subst c. unfold call_effect.
  set (t := try_effect this env command args l token es0).
  pose proof (watcher_put _ _ (fst (snd t)) (snd (snd t)) _ H2) as H3.
  assert (F : (ExecutionState_dispose ref ;; TemporaryFile_dispose l)
                (put ref (fst (snd t)) (snd (snd t)) w2)
              = (file_outcome l,
                 put ref (fst (dispose_effect (fst (snd t))))
                   (snd (snd t) ++ snd (dispose_effect (fst (snd t)))
                      ++ [EvFileDispose (filePath l)]) w2)).
  { rewrite (bind_run _ _ _ _ _ (ExecutionState_dispose_exact _ _ _ H3)).
    rewrite put_put. unfold TemporaryFile_dispose, file_outcome. run.
    unfold put. cbn [heap disposables trace]. rewrite <- !app_assoc.
    now destruct (dispose_throws l). }
  destruct (fst t) eqn:Ft; cbn [fst snd].
  - rewrite F, P. unfold file_outcome. now destruct (dispose_throws l).
  - rewrite F, P. unfold file_outcome. now destruct (dispose_throws l).
  - rewrite P. destruct t as [r [es' evs]]. cbn in *. now subst r.
Qed.

End CallEffect.

(** ** Facts about the race *)

Lemma race_effect_spec (es : ExecutionState) (schedule : list RaceEvent) :
  ticked es (snd (snd (race_effect es schedule)))
    (fst (snd (race_effect es schedule)))
  /\ (fst (race_effect es schedule) = Done tt
      \/ (fst (race_effect es schedule) = Hang
          /\ _completed (fst (snd (race_effect es schedule))) = Pending
          /\ ~ In CancellationRequested schedule))
  /\ (fst (race_effect es schedule) = Done tt ->
      ~ In CancellationRequested schedule ->
      _completed (fst (snd (race_effect es schedule))) <> Pending).
Proof.
  revert es. induction schedule as [|ev schedule IH]; intros es.
  - cbn [race_effect]. destruct (_completed es) eqn:C; cbn [catch_noop fst snd];
      (split; [apply ticked_refl|]); split; auto; try congruence.
  - cbn [race_effect]. destruct (_completed es) eqn:C; cbn [catch_noop fst snd];
      try ((split; [apply ticked_refl|]); split; auto; congruence).
    destruct ev as [read|]; cbn [fst snd].
    + destruct (IH (fst (tick_effect es read))) as (T & O & S).
      split; [eapply ticked_trans; [apply tick_effect_ticked | exact T]|].
      split.
      * destruct O as [O|(O & P & N)]; [now left|].
        right. split; [exact O|]. split; [exact P|].
        intros [X|X]; [discriminate X | contradiction].
      * intros D N. apply S; [exact D|]. intros I. apply N. now right.
    + split; [apply ticked_refl|]. split; [now left|].
      intros _ N. exfalso. apply N. now left.
Qed.

Lemma Cancellation_race_effect_spec (token : CancellationToken)
    (es : ExecutionState) (schedule : list RaceEvent) :
  let r := Cancellation_race_effect token es schedule in
  ticked es (snd (snd r)) (fst (snd r))
  /\ (fst r = Done tt
      \/ (fst r = Hang
          /\ _completed (fst (snd r)) = Pending
          /\ isCancellationRequested token = false
          /\ ~ In CancellationRequested schedule))
  /\ (fst r = Done tt ->
      isCancellationRequested token = false ->
      ~ In CancellationRequested schedule ->
      _completed (fst (snd r)) <> Pending).
Proof.
  unfold Cancellation_race_effect.
  destruct (isCancellationRequested token) eqn:Tk; cbn [fst snd].
  - split; [apply ticked_refl|]. split; [now left|]. intros _ X. discriminate X.
  - destruct (race_effect_spec es schedule) as (T & O & S).
    split; [exact T|]. split.
    + destruct O as [O|(O & P & N)]; [now left | right; auto].
    + intros D _ N. now apply S.
Qed.

(** ** Facts about the [try] block *)

Section CallFacts.

Variable shellExecFile : string.
Variable fileToCommandArgument : string -> string.

Let try_effect' := try_effect shellExecFile fileToCommandArgument.
Let call_effect' := call_effect shellExecFile fileToCommandArgument.

(** A predicate on events that holds of no call to the interpreter service
    or to the terminal. *)
Definition watcher_only (p : Event -> bool) : Prop :=
  p EvGetActiveInterpreter = false
  /\ forall c a, p (EvTerminalSendCommand c a) = false.

Lemma resolve_effect_spec (this : Service) (env : Env) (es : ExecutionState) :
  exists wevs,
    ticked es wevs (fst (resolve_effect this env es))
    /\ (forall p, watcher_only p ->
        count_if p (snd (resolve_effect this env es)) = count_if p wevs)
    /\ count_if is_query (snd (resolve_effect this env es))
       = (match pythonInterpreter this with Some _ => O | None => 1%nat end)
    /\ count_if is_send (snd (resolve_effect this env es)) = O.
Proof.
  unfold resolve_effect. destruct (pythonInterpreter this); cbn [fst snd].
  - exists []. split; [apply ticked_refl|]. repeat split; auto.
  - pose proof (ticks_effect_ticked es (env_reads_resolving env)) as T.
    exists (snd (ticks_effect es (env_reads_resolving env))).
    split; [exact T|]. split; [|split].
    + intros p [Pq _]. unfold count_if. cbn. now rewrite Pq.
    + change (EvGetActiveInterpreter
              :: snd (ticks_effect es (env_reads_resolving env)))
        with ([EvGetActiveInterpreter]
              ++ snd (ticks_effect es (env_reads_resolving env))).
      rewrite count_if_app,
        (count_if_foreign is_query
           (snd (ticks_effect es (env_reads_resolving env))));
        [reflexivity | | apply T].
      intros [] X; try discriminate X; reflexivity.
    + change (EvGetActiveInterpreter
              :: snd (ticks_effect es (env_reads_resolving env)))
        with ([EvGetActiveInterpreter]
              ++ snd (ticks_effect es (env_reads_resolving env))).
      rewrite count_if_app,
        (count_if_foreign is_send
           (snd (ticks_effect es (env_reads_resolving env))));
        [reflexivity | | apply T].
      intros [] X; try discriminate X; reflexivity.
Qed.

Lemma foreign_is_query : foreign is_query.
Proof. intros [] X; try discriminate X; reflexivity. Qed.

Lemma foreign_is_send : foreign is_send.
Proof. intros [] X; try discriminate X; reflexivity. Qed.

Lemma try_effect_spec (this : Service) (env : Env) (command : string)
    (args : list string) (l : TemporaryFile) (token : CancellationToken)
    (es : ExecutionState) :
  let t := try_effect' this env command args l token es in
  exists wevs,
    ticked es wevs (fst (snd t))
    /\ (forall p, watcher_only p ->
        count_if p (snd (snd t)) = count_if p wevs)
    /\ count_if is_query (snd (snd t))
       = (match pythonInterpreter this with Some _ => O | None => 1%nat end)
    /\ count_if is_send (snd (snd t))
       = (match resolved_interpreter this env with Ok _ => 1%nat | Err _ => O end)
    /\ (fst t = try_outcome this env
        \/ (fst t = Hang
            /\ try_outcome this env = Done tt
            /\ _completed (fst (snd t)) = Pending
            /\ isCancellationRequested token = false
            /\ ~ In CancellationRequested (env_race env)))
    /\ (fst t = Done tt ->
        isCancellationRequested token = false ->
        ~ In CancellationRequested (env_race env) ->
        _completed (fst (snd t)) <> Pending).
Proof.
  unfold try_effect', try_effect, try_outcome.
  destruct (resolve_effect_spec this env es) as (w1 & T1 & P1 & Q1 & S1).
  set (r1 := resolve_effect this env es) in *.
  destruct (resolved_interpreter this env) as [pythonExec|e]; cbn [fst snd].
  2:{ exists w1. split; [exact T1|]. split; [exact P1|]. split; [exact Q1|].
      split; [exact S1|]. split; [now left|]. intros X; discriminate X. }
  set (send := EvTerminalSendCommand _ _).
  pose proof (ticks_effect_ticked (fst r1) (env_reads_sending env)) as T2.
  set (r2 := ticks_effect (fst r1) (env_reads_sending env)) in *.
  assert (C2 : forall p tl,
             count_if p (snd r1 ++ send :: tl)
             = (count_if p (snd r1) + count_if p [send] + count_if p tl)%nat).
  { intros p tl. change (send :: tl) with ([send] ++ tl).
    rewrite !count_if_app. apply Nat.add_assoc. }
  destruct (env_terminal_sendCommand env) as [[]|e]; cbn [awaited fst snd].
  2:{ exists (w1 ++ snd r2).
      split; [eapply ticked_trans; eassumption|]. split; [|split; [|split; [|split]]].
      - intros p Wp. rewrite C2, count_if_app, (P1 p Wp).
        destruct Wp as [_ Ws]. unfold count_if at 2. cbn. subst send.
        rewrite Ws. cbn. now rewrite Nat.add_0_r.
      - rewrite C2, Q1, (count_if_foreign is_query (snd r2) foreign_is_query)
          by apply T2.
        cbn. now rewrite !Nat.add_0_r.
      - rewrite C2, S1, (count_if_foreign is_send (snd r2) foreign_is_send)
          by apply T2.
        reflexivity.
      - now left.
      - intros X; discriminate X. }
  destruct (Cancellation_race_effect_spec token (fst r2) (env_race env))
    as (T3 & O3 & D3).
  set (r3 := Cancellation_race_effect token (fst r2) (env_race env)) in *.
  exists (w1 ++ snd r2 ++ snd (snd r3)).
  split; [eapply ticked_trans; [eassumption | eapply ticked_trans; eassumption]|].
  split; [|split; [|split; [|split]]].
  - intros p Wp. rewrite C2, !count_if_app, (P1 p Wp).
    destruct Wp as [_ Ws]. unfold count_if at 2. cbn. subst send.
    rewrite Ws. cbn. now rewrite Nat.add_0_r.
  - rewrite C2, count_if_app, Q1,
      (count_if_foreign is_query (snd r2) foreign_is_query),
      (count_if_foreign is_query (snd (snd r3)) foreign_is_query)
      by (apply T2 || apply T3).
    cbn. now rewrite !Nat.add_0_r.
  - rewrite C2, count_if_app, S1,
      (count_if_foreign is_send (snd r2) foreign_is_send),
      (count_if_foreign is_send (snd (snd r3)) foreign_is_send)
      by (apply T2 || apply T3).
    reflexivity.
  - destruct O3 as [O|(O & P & K & N)]; [left; exact O | right; auto].
  - exact D3.
Qed.

Lemma foreign_is_file_dispose : foreign is_file_dispose.
Proof. intros [] X; try discriminate X; reflexivity. Qed.

Lemma watcher_only_is_clear : watcher_only is_clear.
Proof. split; reflexivity. Qed.

Lemma watcher_only_is_file_dispose : watcher_only is_file_dispose.
Proof. split; reflexivity. Qed.

(** The watcher a call constructs. *)
Definition new_watcher (ref : nat) (l : TemporaryFile) (command : string)
    (args : list string) : ExecutionState :=
  mkExecutionState St.notStarted Pending (Some ref) (filePath l)
    (command :: args).

(** A call that stays suspended. *)
Lemma call_effect_hang (this : Service) (env : Env) (command : string)
    (args : list string) (l : TemporaryFile) (token : CancellationToken)
    (ref : nat) :
  let c := call_effect' this env command args l token
             (new_watcher ref l command args) in
  fst c = Hang ->
  count_if is_clear (snd (snd c)) = O
  /\ count_if is_file_dispose (snd (snd c)) = O
  /\ _completed (fst (snd c)) = Pending
  /\ disposable (fst (snd c)) = Some ref
  /\ try_outcome this env = Done tt
  /\ isCancellationRequested token = false
  /\ ~ In CancellationRequested (env_race env).
Proof.
  unfold call_effect', call_effect. fold try_effect'.
  destruct (try_effect_spec this env command args l token
              (new_watcher ref l command args))
    as (wevs & T & P & _ & _ & O & _).
  set (t := try_effect' this env command args l token _) in *.
  destruct (fst t) eqn:Ft; cbn [fst snd];
    try (unfold file_outcome; destruct (dispose_throws l);
         intros X; discriminate X).
  intros _. destruct O as [O|(_ & Tr & Pe & Tk & N)].
  { exfalso. unfold try_outcome in O.
    destruct (resolved_interpreter this env);
      [destruct (env_terminal_sendCommand env)|]; discriminate O. }
  destruct (tk_pending _ _ _ T Pe) as [_ D]. cbn [new_watcher disposable] in D.
  pose proof (tk_clears _ _ _ T) as K. rewrite D in K.
  cbn [new_watcher disposable] in K.
  split; [now rewrite (P _ watcher_only_is_clear)|].
  split.
  { rewrite (P _ watcher_only_is_file_dispose).
    apply (count_if_foreign _ _ foreign_is_file_dispose), T. }
  auto.
Qed.

(** A call that ends. *)
Lemma call_effect_over (this : Service) (env : Env) (command : string)
    (args : list string) (l : TemporaryFile) (token : CancellationToken)
    (ref : nat) :
  let c := call_effect' this env command args l token
             (new_watcher ref l command args) in
  fst c <> Hang ->
  count_if is_clear (snd (snd c)) = 1%nat
  /\ count_if is_file_dispose (snd (snd c)) = 1%nat
  /\ disposable (fst (snd c)) = None
  /\ fst c = match file_outcome l with
             | Done _ => try_outcome this env
             | o => o
             end
  /\ exists evs0, snd (snd c) = evs0 ++ [EvFileDispose (filePath l)].
Proof.
  unfold call_effect', call_effect. fold try_effect'.
  destruct (try_effect_spec this env command args l token
              (new_watcher ref l command args))
    as (wevs & T & P & _ & _ & O & _).
  set (t := try_effect' this env command args l token _) in *.
  assert (G : fst t <> Hang ->
              count_if is_clear
                (snd (snd t) ++ snd (dispose_effect (fst (snd t)))
                   ++ [EvFileDispose (filePath l)]) = 1%nat
              /\ count_if is_file_dispose
                   (snd (snd t) ++ snd (dispose_effect (fst (snd t)))
                      ++ [EvFileDispose (filePath l)]) = 1%nat
              /\ disposable (fst (dispose_effect (fst (snd t)))) = None
              /\ fst t = try_outcome this env).
  { intros NH. destruct O as [O|(O & _)]; [|contradiction].
    rewrite !count_if_app, (P _ watcher_only_is_clear),
      (P _ watcher_only_is_file_dispose),
      (count_if_foreign _ wevs foreign_is_file_dispose) by apply T.
    pose proof (tk_clears _ _ _ T) as K. cbn [new_watcher disposable] in K.
    rewrite K. unfold dispose_effect.
    destruct (disposable (fst (snd t))) eqn:D; cbn [fst snd]; rewrite ?D; auto. }
  destruct (fst t) eqn:Ft; cbn [fst snd]; intros NH.
  - destruct G as (G1 & G2 & G3 & G4); [discriminate|].
    rewrite <- G4. repeat split; auto.
    eexists. now rewrite app_assoc.
  - destruct G as (G1 & G2 & G3 & G4); [discriminate|].
    rewrite <- G4. repeat split; auto.
    eexists. now rewrite app_assoc.
  - contradiction.
Qed.

Lemma dispose_effect_keeps (es : ExecutionState) :
  lockFile (fst (dispose_effect es)) = lockFile es
  /\ command (fst (dispose_effect es)) = command es
  /\ _completed (fst (dispose_effect es)) = _completed es
  /\ state (fst (dispose_effect es)) = state es.
Proof. unfold dispose_effect. destruct (disposable es); repeat split. Qed.

Lemma call_effect_counts (this : Service) (env : Env) (cmd : string)
    (args : list string) (l : TemporaryFile) (token : CancellationToken)
    (es : ExecutionState) :
  let c := call_effect' this env cmd args l token es in
  count_if is_query (snd (snd c))
  = match pythonInterpreter this with Some _ => O | None => 1%nat end
  /\ count_if is_send (snd (snd c))
     = match resolved_interpreter this env with Ok _ => 1%nat | Err _ => O end
  /\ lockFile (fst (snd c)) = lockFile es
  /\ command (fst (snd c)) = command es.
Proof.
  unfold call_effect', call_effect. fold try_effect'.
  destruct (try_effect_spec this env cmd args l token es)
    as (wevs & T & _ & Q & S & _ & _).
  set (t := try_effect' this env cmd args l token es) in *.
  destruct (dispose_effect_keeps (fst (snd t))) as (KL & KC & _ & _).
  assert (D : forall p, foreign p -> p (EvFileDispose (filePath l)) = false ->
              count_if p (snd (snd t) ++ snd (dispose_effect (fst (snd t)))
                            ++ [EvFileDispose (filePath l)])
              = count_if p (snd (snd t))).
  { intros p Fp Pf. rewrite !count_if_app.
    assert (count_if p (snd (dispose_effect (fst (snd t)))) = O) as ->.
    { unfold dispose_effect. destruct (disposable (fst (snd t))); cbn [snd];
        [|reflexivity].
      apply count_if_none. intros e [<-|[]].
      destruct (p (EvClearInterval n)) eqn:X; [|reflexivity].
      discriminate (Fp _ X). }
    unfold count_if at 3. cbn. rewrite Pf. cbn. now rewrite Nat.add_0_r. }
  destruct (fst t); cbn [fst snd].
  - rewrite !D by (auto using foreign_is_query, foreign_is_send).
    rewrite KL, KC. repeat split; auto; apply T.
  - rewrite !D by (auto using foreign_is_query, foreign_is_send).
    rewrite KL, KC. repeat split; auto; apply T.
  - repeat split; auto; apply T.
Qed.

(** A call that returns normally although nobody cancelled. *)
Lemma call_effect_waited (this : Service) (env : Env) (cmd : string)
    (args : list string) (l : TemporaryFile) (token : CancellationToken)
    (es : ExecutionState) :
  let c := call_effect' this env cmd args l token es in
  fst c = Done tt ->
  isCancellationRequested token = false ->
  ~ In CancellationRequested (env_race env) ->
  _completed (fst (snd c)) <> Pending.
Proof.
  unfold call_effect', call_effect. fold try_effect'.
  destruct (try_effect_spec this env cmd args l token es)
    as (wevs & _ & _ & _ & _ & _ & W).
  set (t := try_effect' this env cmd args l token es) in *.
  destruct (dispose_effect_keeps (fst (snd t))) as (_ & _ & KC & _).
  destruct (fst t) as [[]| |] eqn:Ft; cbn [fst snd].
  - intros _ Tk N. rewrite KC. now apply W.
  - unfold file_outcome. destruct (dispose_throws l); intros X; discriminate X.
  - rewrite Ft. intros X; discriminate X.
Qed.

(** The summary of a call, ready for use. *)
Lemma sendCommand_summary (this : Service) (env : Env) (cmd : string)
    (args : list string) (token : CancellationToken) (w : World)
    (l : TemporaryFile) :
  env_createTemporaryFile env = Ok l ->
  exists r w' evs es',
    sendCommand shellExecFile fileToCommandArgument this env cmd args
      (Some token) w = (r, w')
    /\ heap w' = heap w ++ [es']
    /\ disposables w' = disposables w ++ [l]
    /\ trace w' = trace w ++ EvCreateTemporaryFile ".log"
                     :: EvSetInterval (List.length (heap w)) 100 :: evs
    /\ watcher w' (List.length (heap w)) = Some es'
    /\ call_effect' this env cmd args l token
         (new_watcher (List.length (heap w)) l cmd args) = (r, (es', evs)).
Proof.
  intros Hl. pose proof (sendCommand_exact shellExecFile fileToCommandArgument
                           this env cmd args token w l Hl) as E.
  cbv zeta in E. fold (new_watcher (List.length (heap w)) l cmd args) in E.
  fold call_effect' in E.
  set (c := call_effect' this env cmd args l token _) in *.
  exists (fst c), (mkWorld (heap w ++ [fst (snd c)]) (disposables w ++ [l])
                    (trace w ++ EvCreateTemporaryFile ".log"
                       :: EvSetInterval (List.length (heap w)) 100
                       :: snd (snd c))),
    (snd (snd c)), (fst (snd c)).
  split; [exact E|]. repeat split.
  - apply nth_error_alloc.
  - now destruct c as [r [es' evs]].
Qed.

(** ** Properties of a call with a token *)

(** A call constructs exactly one watcher, over the lock file it created
    and labelled with the command followed by its arguments; the watchers
    already on the heap are left as they were. *)
Theorem sendCommand_adds_one_watcher (this : Service) (env : Env)
    (cmd : string) (args : list string) (token : CancellationToken)
    (w : World) (l : TemporaryFile) :
  env_createTemporaryFile env = Ok l ->
  exists r w' es',
    sendCommand shellExecFile fileToCommandArgument this env cmd args
      (Some token) w = (r, w')
    /\ heap w' = heap w ++ [es']
    /\ lockFile es' = filePath l
    /\ command es' = cmd :: args.
Proof.
  intros Hl.
  destruct (sendCommand_summary this env cmd args token w l Hl)
    as (r & w' & evs & es' & E & Hh & _ & _ & _ & C).
  exists r, w', es'. split; [exact E|]. split; [exact Hh|].
  pose proof (call_effect_counts this env cmd args l token
                (new_watcher (List.length (heap w)) l cmd args)) as K.
  cbv zeta in K. rewrite C in K. cbn [fst snd] in K.
  destruct K as (_ & _ & KL & KC). split; [exact KL | exact KC].
Qed.

(** The interpreter service is asked for the active interpreter once when
    the service was constructed without an interpreter, and not at all
    when it was constructed with one. *)
Theorem interpreter_queried_only_without_override (this : Service) (env : Env)
    (cmd : string) (args : list string) (token : CancellationToken)
    (w : World) (l : TemporaryFile) :
  env_createTemporaryFile env = Ok l ->
  exists r w' evs,
    sendCommand shellExecFile fileToCommandArgument this env cmd args
      (Some token) w = (r, w')
    /\ trace w' = trace w ++ evs
    /\ count_if is_query evs
       = match pythonInterpreter this with Some _ => O | None => 1%nat end.
Proof.
  intros Hl.
  destruct (sendCommand_summary this env cmd args token w l Hl)
    as (r & w' & evs & es' & E & _ & _ & Ht & _ & C).
  exists r, w', (EvCreateTemporaryFile ".log"
                 :: EvSetInterval (List.length (heap w)) 100 :: evs).
  split; [exact E|]. split; [exact Ht|].
  pose proof (call_effect_counts this env cmd args l token
                (new_watcher (List.length (heap w)) l cmd args)) as K.
  cbv zeta in K. rewrite C in K. cbn [fst snd] in K.
  destruct K as (KQ & _). exact KQ.
Qed.

(** When resolving the interpreter fails, nothing is sent to the terminal
    and the call rejects with that failure (or with the error of the lock
    file's [dispose()], if that throws too). *)
Theorem resolution_failure_sends_nothing (this : Service) (env : Env)
    (cmd : string) (args : list string) (token : CancellationToken)
    (w : World) (l : TemporaryFile) (e : Error) :
  env_createTemporaryFile env = Ok l ->
  resolved_interpreter this env = Err e ->
  exists w' evs,
    sendCommand shellExecFile fileToCommandArgument this env cmd args
      (Some token) w
    = (match dispose_throws l with Some e' => Fail e' | None => Fail e end, w')
    /\ trace w' = trace w ++ evs
    /\ count_if is_send evs = O.
Proof.
  intros Hl Hr.
  destruct (sendCommand_summary this env cmd args token w l Hl)
    as (r & w' & evs & es' & E & _ & _ & Ht & _ & C).
  pose proof (call_effect_counts this env cmd args l token
                (new_watcher (List.length (heap w)) l cmd args)) as K.
  cbv zeta in K. rewrite C in K. cbn [fst snd] in K.
  destruct K as (_ & KS & _). rewrite Hr in KS.
  assert (NH : r <> Hang).
  { intros ->.
    pose proof (call_effect_hang this env cmd args l token
                  (List.length (heap w))) as Hg.
    cbv zeta in Hg. rewrite C in Hg. cbn [fst snd] in Hg.
    destruct (Hg eq_refl) as (_ & _ & _ & _ & T & _).
    unfold try_outcome in T. rewrite Hr in T. discriminate T. }
  pose proof (call_effect_over this env cmd args l token
                (List.length (heap w))) as O.
  cbv zeta in O. rewrite C in O. cbn [fst snd] in O.
  destruct (O NH) as (_ & _ & _ & R & _).
  unfold try_outcome, file_outcome in R. rewrite Hr in R.
  exists w', (EvCreateTemporaryFile ".log"
              :: EvSetInterval (List.length (heap w)) 100 :: evs).
  split; [|split; [exact Ht | exact KS]].
  rewrite E, R. now destruct (dispose_throws l).
Qed.

(** A failure of the interpreter service or of the terminal never leaves
    the call suspended, even while the watcher is still waiting: the call
    rejects with that failure (or with the error of the lock file's
    [dispose()]). *)
Theorem collaborator_failure_rejects (this : Service) (env : Env)
    (cmd : string) (args : list string) (token : CancellationToken)
    (w : World) (l : TemporaryFile) (e : Error) :
  env_createTemporaryFile env = Ok l ->
  try_outcome this env = Fail e ->
  exists w',
    sendCommand shellExecFile fileToCommandArgument this env cmd args
      (Some token) w
    = (match dispose_throws l with Some e' => Fail e' | None => Fail e end, w').
Proof.
  intros Hl Ht.
  destruct (sendCommand_summary this env cmd args token w l Hl)
    as (r & w' & evs & es' & E & _ & _ & _ & _ & C).
  assert (NH : r <> Hang).
  { intros ->.
    pose proof (call_effect_hang this env cmd args l token
                  (List.length (heap w))) as Hg.
    cbv zeta in Hg. rewrite C in Hg. cbn [fst snd] in Hg.
    destruct (Hg eq_refl) as (_ & _ & _ & _ & T & _). congruence. }
  pose proof (call_effect_over this env cmd args l token
                (List.length (heap w))) as O.
  cbv zeta in O. rewrite C in O. cbn [fst snd] in O.
  destruct (O NH) as (_ & _ & _ & R & _).
  unfold file_outcome in R. rewrite Ht in R.
  exists w'. rewrite E, R. now destruct (dispose_throws l).
Qed.

(** An error thrown by the lock file's [dispose()] in the [finally] block
    becomes the outcome of every call that ends, whatever happened
    before: a command that completed, a cancellation, an earlier
    failure. *)
Theorem lock_file_dispose_error_masks_outcome (this : Service) (env : Env)
    (cmd : string) (args : list string) (token : CancellationToken)
    (w : World) (l : TemporaryFile) (e : Error) :
  env_createTemporaryFile env = Ok l ->
  dispose_throws l = Some e ->
  exists r w',
    sendCommand shellExecFile fileToCommandArgument this env cmd args
      (Some token) w = (r, w')
    /\ (r = Hang \/ r = Fail e).
Proof.
  intros Hl Hd.
  destruct (sendCommand_summary this env cmd args token w l Hl)
    as (r & w' & evs & es' & E & _ & _ & _ & _ & C).
  exists r, w'. split; [exact E|].
  destruct r as [[]|e'|]; [right|right|now left].
  - pose proof (call_effect_over this env cmd args l token
                  (List.length (heap w))) as O.
    cbv zeta in O. rewrite C in O. cbn [fst snd] in O.
    destruct O as (_ & _ & _ & R & _); [discriminate|].
    unfold file_outcome in R. rewrite Hd in R. exact R.
  - pose proof (call_effect_over this env cmd args l token
                  (List.length (heap w))) as O.
    cbv zeta in O. rewrite C in O. cbn [fst snd] in O.
    destruct O as (_ & _ & _ & R & _); [discriminate|].
    unfold file_outcome in R. rewrite Hd in R. exact R.
Qed.

(** A call that is still waiting holds its resources: the promise is
    pending, the interval is registered, and neither the interval nor the
    lock file has been released. *)
Theorem waiting_call_holds_its_resources (this : Service) (env : Env)
    (cmd : string) (args : list string) (token : CancellationToken)
    (w w' : World) (l : TemporaryFile) :
  env_createTemporaryFile env = Ok l ->
  sendCommand shellExecFile fileToCommandArgument this env cmd args
    (Some token) w = (Hang, w') ->
  exists es' evs,
    watcher w' (List.length (heap w)) = Some es'
    /\ _completed es' = Pending
    /\ disposable es' = Some (List.length (heap w))
    /\ trace w' = trace w ++ evs
    /\ count_if is_clear evs = O
    /\ count_if is_file_dispose evs = O.
Proof.
  intros Hl E0.
  destruct (sendCommand_summary this env cmd args token w l Hl)
    as (r & w0 & evs & es' & E & _ & _ & Ht & Hw & C).
  rewrite E0 in E. injection E as <- <-.
  pose proof (call_effect_hang this env cmd args l token
                (List.length (heap w))) as Hg.
  cbv zeta in Hg. rewrite C in Hg. cbn [fst snd] in Hg.
  destruct (Hg eq_refl) as (K1 & K2 & P & D & _).
  exists es', (EvCreateTemporaryFile ".log"
               :: EvSetInterval (List.length (heap w)) 100 :: evs).
  repeat split; auto.
Qed.

(** A call that ends has released each resource exactly once: one
    [clearInterval] -- by the watcher itself when its promise settled, or
    else by the [finally] block -- and one [dispose()] of the lock file. *)
Theorem finished_call_releases_once (this : Service) (env : Env)
    (cmd : string) (args : list string) (token : CancellationToken)
    (w w' : World) (l : TemporaryFile) (r : outcome unit) :
  env_createTemporaryFile env = Ok l ->
  sendCommand shellExecFile fileToCommandArgument this env cmd args
    (Some token) w = (r, w') ->
  r <> Hang ->
  exists evs,
    trace w' = trace w ++ evs
    /\ count_if is_clear evs = 1%nat
    /\ count_if is_file_dispose evs = 1%nat.
Proof.
  intros Hl E0 NH.
  destruct (sendCommand_summary this env cmd args token w l Hl)
    as (r0 & w0 & evs & es' & E & _ & _ & Ht & _ & C).
  rewrite E0 in E. injection E as <- <-.
  pose proof (call_effect_over this env cmd args l token
                (List.length (heap w))) as O.
  cbv zeta in O. rewrite C in O. cbn [fst snd] in O.
  destruct (O NH) as (K1 & K2 & _).
  exists (EvCreateTemporaryFile ".log"
          :: EvSetInterval (List.length (heap w)) 100 :: evs).
  repeat split; auto.
Qed.

(** Cancellation ends the wait: with a token that is already cancelled, or
    cancelled at some point of the race, the call is not left suspended,
    and its outcome is that of the steps before the race and of the
    cleanup. *)
Theorem cancellation_ends_the_wait (this : Service) (env : Env)
    (cmd : string) (args : list string) (token : CancellationToken)
    (w : World) (l : TemporaryFile) :
  env_createTemporaryFile env = Ok l ->
  isCancellationRequested token = true
  \/ In CancellationRequested (env_race env) ->
  exists w',
    sendCommand shellExecFile fileToCommandArgument this env cmd args
      (Some token) w
    = (match file_outcome l with
       | Done _ => try_outcome this env
       | o => o
       end, w').
Proof.
  intros Hl Hc.
  destruct (sendCommand_summary this env cmd args token w l Hl)
    as (r & w' & evs & es' & E & _ & _ & _ & _ & C).
  assert (NH : r <> Hang).
  { intros ->.
    pose proof (call_effect_hang this env cmd args l token
                  (List.length (heap w))) as Hg.
    cbv zeta in Hg. rewrite C in Hg. cbn [fst snd] in Hg.
    destruct (Hg eq_refl) as (_ & _ & _ & _ & _ & Tk & N).
    destruct Hc as [Hc|Hc]; [congruence | contradiction]. }
  pose proof (call_effect_over this env cmd args l token
                (List.length (heap w))) as O.
  cbv zeta in O. rewrite C in O. cbn [fst snd] in O.
  destruct (O NH) as (_ & _ & _ & R & _).
  exists w'. now rewrite E, R.
Qed.

(** Without cancellation, the call returns normally only once the
    watcher's promise is settled: a terminal marker has been read. *)
Theorem normal_return_means_settled (this : Service) (env : Env)
    (cmd : string) (args : list string) (token : CancellationToken)
    (w w' : World) (l : TemporaryFile) :
  env_createTemporaryFile env = Ok l ->
  sendCommand shellExecFile fileToCommandArgument this env cmd args
    (Some token) w = (Done tt, w') ->
  isCancellationRequested token = false ->
  ~ In CancellationRequested (env_race env) ->
  exists es',
    watcher w' (List.length (heap w)) = Some es'
    /\ _completed es' <> Pending.
Proof.
  intros Hl E0 Tk N.
  destruct (sendCommand_summary this env cmd args token w l Hl)
    as (r0 & w0 & evs & es' & E & _ & _ & _ & Hw & C).
  rewrite E0 in E. injection E as <- <-.
  pose proof (call_effect_waited this env cmd args l token
                (new_watcher (List.length (heap w)) l cmd args)) as W.
  cbv zeta in W. rewrite C in W. cbn [fst snd] in W.
  exists es'. split; [exact Hw | now apply W].
Qed.

(** Whatever is sent to the terminal names a program -- the command is
    never the empty string -- and carries the helper script, the command
    and the lock file around the caller's arguments. *)
Theorem sent_command_is_never_empty (this : Service) (env : Env)
    (cmd : string) (args : list string) (token : CancellationToken)
    (w : World) (l : TemporaryFile) :
  env_createTemporaryFile env = Ok l ->
  exists r w' evs,
    sendCommand shellExecFile fileToCommandArgument this env cmd args
      (Some token) w = (r, w')
    /\ trace w' = trace w ++ evs
    /\ forall c a, In (c, a) (sends evs) ->
         c <> EmptyString /\ List.length a = (List.length args + 3)%nat.
Proof.
  intros Hl.
  destruct (sendCommand_cancel_run shellExecFile fileToCommandArgument
              this env cmd args token w l Hl)
    as (r & w' & evs & es' & E & T & _ & _ & _ & S & _).
  exists r, w', (EvCreateTemporaryFile ".log"
                 :: EvSetInterval (List.length (heap w)) 100 :: evs).
  split; [exact E|]. split; [exact T|].
  cbn [sends]. rewrite S. unfold expected_sends.
  destruct (resolved_interpreter this env) as [pythonExec|e];
    [|intros c a []].
  intros c a [X|[]]. injection X as <- <-. split.
  - unfold python_path. destruct pythonExec as [[p]|]; cbn; [|discriminate].
    destruct p; discriminate.
  - unfold rewritten_args. cbn. rewrite length_app. cbn. lia.
Qed.

Lemma race_effect_no_marker (es : ExecutionState) (h : nat)
    (quiet : list string) :
  _completed es = Pending ->
  disposable es = Some h ->
  Forall no_marker quiet ->
  fst (race_effect es (map (fun s => TimerTick (Ok s)) quiet)) = Hang.
Proof.
  intros P D F. revert es P D.
  induction F as [|source quiet N F IH]; intros es P D;
    cbn [map race_effect]; rewrite P; cbn [catch_noop fst snd].
  - reflexivity.
  - destruct (ticks_effect_no_marker es h [source] D
                (Forall_cons _ N (Forall_nil _))) as (C1 & D1 & _).
    cbn [map ticks_effect fst snd] in C1, D1.
    apply IH; [now rewrite C1 | exact D1].
Qed.

(** With no cancellation and no terminal marker ever read, the call never
    returns: it stays suspended in the race however long the polling goes
    on. *)
Theorem never_returns_without_marker (this : Service) (env : Env)
    (cmd : string) (args : list string) (token : CancellationToken)
    (w : World) (l : TemporaryFile) (q1 q2 q3 : list string) :
  env_createTemporaryFile env = Ok l ->
  try_outcome this env = Done tt ->
  isCancellationRequested token = false ->
  env_reads_resolving env = map Ok q1 ->
  env_reads_sending env = map Ok q2 ->
  env_race env = map (fun s => TimerTick (Ok s)) q3 ->
  Forall no_marker q1 -> Forall no_marker q2 -> Forall no_marker q3 ->
  exists w',
    sendCommand shellExecFile fileToCommandArgument this env cmd args
      (Some token) w = (Hang, w').
Proof.
  intros Hl Ht Tk R1 R2 R3 F1 F2 F3.
  pose proof (sendCommand_exact shellExecFile fileToCommandArgument
                this env cmd args token w l Hl) as E.
  cbv zeta in E. eexists. rewrite E. f_equal.
  unfold call_effect, try_effect, try_outcome in *.
  set (es0 := mkExecutionState _ _ _ _ _).
  assert (A1 : _completed (fst (resolve_effect this env es0)) = Pending
               /\ disposable (fst (resolve_effect this env es0))
                  = Some (List.length (heap w))).
  { unfold resolve_effect. destruct (pythonInterpreter this); cbn [fst snd].
    - split; reflexivity.
    - rewrite R1.
      destruct (ticks_effect_no_marker es0 (List.length (heap w)) q1 eq_refl F1)
        as (C & D & _).
      split; [now rewrite C | exact D]. }
  destruct A1 as [P1 D1].
  destruct (resolved_interpreter this env) as [pythonExec|e]; [|discriminate Ht].
  destruct (env_terminal_sendCommand env) as [[]|e]; [|discriminate Ht].
  cbn [fst snd]. rewrite R2, R3.
  destruct (ticks_effect_no_marker (fst (resolve_effect this env es0))
              (List.length (heap w)) q2 D1 F2) as (C2 & D2 & _).
  unfold Cancellation_race_effect. rewrite Tk.
  assert (H : fst (race_effect
                     (fst (ticks_effect (fst (resolve_effect this env es0))
                             (map Ok q2)))
                     (map (fun s => TimerTick (Ok s)) q3)) = Hang).
  { apply (race_effect_no_marker _ (List.length (heap w)));
      [now rewrite C2, P1 | exact D2 | exact F3]. }
  now rewrite H.
Qed.

(** ** Properties of [dispose()] of the service *)



(** Calls compose: two calls one after the other leave two watchers on
    the heap and two lock files in [disposables], each in call order. *)
Theorem calls_compose (this : Service) (env1 env2 : Env)
    (cmd1 cmd2 : string) (args1 args2 : list string)
    (token1 token2 : CancellationToken) (w : World) (l1 l2 : TemporaryFile) :
  env_createTemporaryFile env1 = Ok l1 ->
  env_createTemporaryFile env2 = Ok l2 ->
  exists r1 w1 r2 w2 es1 es2,
    sendCommand shellExecFile fileToCommandArgument this env1 cmd1 args1
      (Some token1) w = (r1, w1)
    /\ sendCommand shellExecFile fileToCommandArgument this env2 cmd2 args2
         (Some token2) w1 = (r2, w2)
    /\ heap w2 = heap w ++ [es1; es2]
    /\ command es1 = cmd1 :: args1
    /\ command es2 = cmd2 :: args2
    /\ disposables w2 = disposables w ++ [l1; l2].
Proof.
  intros H1 H2.
  destruct (sendCommand_summary this env1 cmd1 args1 token1 w l1 H1)
    as (r1 & w1 & evs1 & es1 & E1 & Hh1 & Hd1 & _ & _ & C1).
  destruct (sendCommand_summary this env2 cmd2 args2 token2 w1 l2 H2)
    as (r2 & w2 & evs2 & es2 & E2 & Hh2 & Hd2 & _ & _ & C2).
  exists r1, w1, r2, w2, es1, es2.
  split; [exact E1|]. split; [exact E2|].
  pose proof (call_effect_counts this env1 cmd1 args1 l1 token1
                (new_watcher (List.length (heap w)) l1 cmd1 args1)) as K1.
  cbv zeta in K1. rewrite C1 in K1. cbn [fst snd] in K1.
  pose proof (call_effect_counts this env2 cmd2 args2 l2 token2
                (new_watcher (List.length (heap w1)) l2 cmd2 args2)) as K2.
  cbv zeta in K2. rewrite C2 in K2. cbn [fst snd] in K2.
  split; [now rewrite Hh2, Hh1, <- app_assoc|].
  split; [apply K1|]. split; [apply K2|].
  now rewrite Hd2, Hd1, <- app_assoc.
Qed.

End CallFacts.

(** ** Further concrete runs *)

Module Cases.

(** No marker is ever written and nobody cancels. *)
Definition env_waiting : Env :=
  mkEnv (Ok Scenario.lock) (Ok None) (Ok tt) [Ok EmptyString] [Ok "START"]
    [TimerTick (Ok "START")].

(** A lock file whose [dispose()] throws. *)
Definition busy_lock : TemporaryFile :=
  mkTemporaryFile "/tmp/lock 2.log" (Some "EBUSY").

Definition env_busy_lock : Env :=
  mkEnv (Ok busy_lock) (Ok None) (Ok tt) [] []
    [TimerTick (Ok "START END")].

(** A service constructed with an interpreter. *)
Definition service_with_interpreter : Service :=
  mkService (Some (mkPythonInterpreter "/usr/bin/python3")).

Definition send (this : Service) (env : Env) (command : string)
    (args : list string) (w : World) : outcome unit * World :=
  sendCommand Scenario.shellExecFile Scenario.quote_if_spaced this env
    command args (Some Scenario.token) w.

End Cases.


Lemma poll_logs_state_changes_witness :
  exists st w' evs es',
    getLockFileState (Ok "START") = Ok st
    /\ poll 0 (Ok "START") Scenario.fresh_world = (Done tt, w')
    /\ trace w' = trace Scenario.fresh_world ++ evs
    /\ watcher w' 0 = Some es'
    /\ state es' = st
    /\ count_if is_read evs = 1%nat
    /\ count_if is_log evs = (if st =? 0 then O else 1%nat)
    /\ (st <> 0 ->
        In (EvTraceVerbose (state_changed_message st ["build"])) evs).
Proof.
  exact (poll_logs_state_changes 0 Scenario.fresh_world
           Scenario.fresh_watcher "START" eq_refl).
Defined.

Lemma ExecutionState_dispose_idempotent_witness :
  exists w1,
    ExecutionState_dispose 0 Scenario.fresh_world = (Done tt, w1)
    /\ trace w1 = trace Scenario.fresh_world ++ [EvClearInterval 0]
    /\ ExecutionState_dispose 0 w1 = (Done tt, w1).
Proof.
  exact (ExecutionState_dispose_idempotent 0 Scenario.fresh_world
           Scenario.fresh_watcher eq_refl).
Defined.



Lemma sendCommand_adds_one_watcher_witness :
  exists r w' es',
    Cases.send Scenario.service Scenario.env_end "echo" ["hi"] initial_world
    = (r, w')
    /\ heap w' = heap initial_world ++ [es']
    /\ lockFile es' = "/tmp/lock 1.log"
    /\ command es' = ["echo"; "hi"].
Proof.
  apply (sendCommand_adds_one_watcher Scenario.shellExecFile
           Scenario.quote_if_spaced Scenario.service Scenario.env_end
           "echo" ["hi"] Scenario.token initial_world Scenario.lock).
  reflexivity.
Defined.

Lemma interpreter_queried_only_without_override_witness :
  exists r w' evs,
    Cases.send Cases.service_with_interpreter Scenario.env_no_interpreter
      "build" [] initial_world = (r, w')
    /\ trace w' = trace initial_world ++ evs
    /\ count_if is_query evs = O.
Proof.
  apply (interpreter_queried_only_without_override Scenario.shellExecFile
           Scenario.quote_if_spaced Cases.service_with_interpreter
           Scenario.env_no_interpreter "build" [] Scenario.token
           initial_world Scenario.lock).
  reflexivity.
Defined.

Lemma resolution_failure_sends_nothing_witness :
  exists w' evs,
    Cases.send Scenario.service Scenario.env_no_interpreter "build" []
      initial_world = (Fail "no interpreter", w')
    /\ trace w' = trace initial_world ++ evs
    /\ count_if is_send evs = O.
Proof.
  apply (resolution_failure_sends_nothing Scenario.shellExecFile
           Scenario.quote_if_spaced Scenario.service
           Scenario.env_no_interpreter "build" [] Scenario.token
           initial_world Scenario.lock "no interpreter").
  - reflexivity.
  - reflexivity.
Defined.

Lemma collaborator_failure_rejects_witness :
  exists w',
    Cases.send Scenario.service Scenario.env_no_terminal "build" []
      initial_world = (Fail "terminal closed", w').
Proof.
  apply (collaborator_failure_rejects Scenario.shellExecFile
           Scenario.quote_if_spaced Scenario.service
           Scenario.env_no_terminal "build" [] Scenario.token
           initial_world Scenario.lock "terminal closed").
  - reflexivity.
  - reflexivity.
Defined.

Lemma lock_file_dispose_error_masks_outcome_witness :
  exists r w',
    Cases.send Scenario.service Cases.env_busy_lock "build" [] initial_world
    = (r, w')
    /\ (r = Hang \/ r = Fail "EBUSY").
Proof.
  apply (lock_file_dispose_error_masks_outcome Scenario.shellExecFile
           Scenario.quote_if_spaced Scenario.service Cases.env_busy_lock
           "build" [] Scenario.token initial_world Cases.busy_lock "EBUSY").
  - reflexivity.
  - reflexivity.
Defined.

Lemma waiting_call_holds_its_resources_witness :
  exists es' evs,
    watcher
      (snd (Cases.send Scenario.service Cases.env_waiting "build" []
              initial_world)) 0 = Some es'
    /\ _completed es' = Pending
    /\ disposable es' = Some O
    /\ trace (snd (Cases.send Scenario.service Cases.env_waiting "build" []
                     initial_world)) = trace initial_world ++ evs
    /\ count_if is_clear evs = O
    /\ count_if is_file_dispose evs = O.
Proof.
  apply (waiting_call_holds_its_resources Scenario.shellExecFile
           Scenario.quote_if_spaced Scenario.service Cases.env_waiting
           "build" [] Scenario.token initial_world _ Scenario.lock).
  - reflexivity.
  - reflexivity.
Defined.

Lemma finished_call_releases_once_witness :
  exists evs,
    trace (snd (Scenario.run Scenario.env_cancelled "sleep" ["10"]))
    = trace initial_world ++ evs
    /\ count_if is_clear evs = 1%nat
    /\ count_if is_file_dispose evs = 1%nat.
Proof.
  apply (finished_call_releases_once Scenario.shellExecFile
           Scenario.quote_if_spaced Scenario.service Scenario.env_cancelled
           "sleep" ["10"] Scenario.token initial_world _ Scenario.lock
           (fst (Scenario.run Scenario.env_cancelled "sleep" ["10"]))).
  - reflexivity.
  - reflexivity.
  - vm_compute. discriminate.
Defined.

Lemma cancellation_ends_the_wait_witness :
  exists w',
    Cases.send Scenario.service Scenario.env_cancelled "sleep" ["10"]
      initial_world = (Done tt, w').
Proof.
  apply (cancellation_ends_the_wait Scenario.shellExecFile
           Scenario.quote_if_spaced Scenario.service Scenario.env_cancelled
           "sleep" ["10"] Scenario.token initial_world Scenario.lock).
  - reflexivity.
  - right. right. left. reflexivity.
Defined.

Lemma normal_return_means_settled_witness :
  exists es',
    watcher (snd (Scenario.run Scenario.env_end "build" [])) 0 = Some es'
    /\ _completed es' <> Pending.
Proof.
  apply (normal_return_means_settled Scenario.shellExecFile
           Scenario.quote_if_spaced Scenario.service Scenario.env_end
           "build" [] Scenario.token initial_world _ Scenario.lock).
  - reflexivity.
  - reflexivity.
  - reflexivity.
  - intros [X|[X|[]]]; discriminate X.
Defined.

Lemma sent_command_is_never_empty_witness :
  exists r w' evs,
    Cases.send Scenario.service Scenario.env_end "echo" ["a b"] initial_world
    = (r, w')
    /\ trace w' = trace initial_world ++ evs
    /\ forall c a, In (c, a) (sends evs) ->
         c <> EmptyString /\ List.length a = 4%nat.
Proof.
  apply (sent_command_is_never_empty Scenario.shellExecFile
           Scenario.quote_if_spaced Scenario.service Scenario.env_end
           "echo" ["a b"] Scenario.token initial_world Scenario.lock).
  reflexivity.
Defined.

Lemma never_returns_without_marker_witness :
  exists w',
    Cases.send Scenario.service Cases.env_waiting "build" [] initial_world
    = (Hang, w').
Proof.
  apply (never_returns_without_marker Scenario.shellExecFile
           Scenario.quote_if_spaced Scenario.service Cases.env_waiting
           "build" [] Scenario.token initial_world Scenario.lock
           [EmptyString] ["START"] ["START"]).
  - reflexivity.
  - reflexivity.
  - reflexivity.
  - reflexivity.
  - reflexivity.
  - reflexivity.
  - repeat constructor; apply includes_false; reflexivity.
  - repeat constructor; apply includes_false; reflexivity.
  - repeat constructor; apply includes_false; reflexivity.
Defined.


Lemma calls_compose_witness :
  exists r1 w1 r2 w2 es1 es2,
    Cases.send Scenario.service Scenario.env_end "build" [] initial_world
    = (r1, w1)
    /\ Cases.send Scenario.service Cases.env_busy_lock "test" ["-v"] w1
       = (r2, w2)
    /\ heap w2 = heap initial_world ++ [es1; es2]
    /\ command es1 = ["build"]
    /\ command es2 = ["test"; "-v"]
    /\ disposables w2
       = disposables initial_world ++ [Scenario.lock; Cases.busy_lock].
Proof.
  apply (calls_compose Scenario.shellExecFile Scenario.quote_if_spaced
           Scenario.service Scenario.env_end Cases.env_busy_lock
           "build" "test" [] ["-v"] Scenario.token Scenario.token
           initial_world Scenario.lock Cases.busy_lock).
  - reflexivity.
  - reflexivity.
Defined.
